(** * kubecfg: utils/client.go

    A shallow embedding of the in-memory caching discovery client
    ([memcachedDiscoveryClient]), of the preferred-resource aggregation
    built on top of it, and of the lookup of the resource that serves a
    group-version-kind, together with the properties stated about them.

    Conventions of the embedding.
    - A Go pointer to a [T] is an [option T]; [None] is the nil pointer.
      Dereferencing nil panics.
    - A Go function returning a pointer and an [error] returns a [reply T],
      the pair of both components, because the code stores and returns the first
      component also when the second one is not nil.
    - A Go map is an [option (gmap K V)]; [None] is the nil map, which can be
      read (every key gives the zero value) but not written (panic).
    - A method with a pointer receiver is a function from the state of the
      receiver to an [outcome]: it returns a value and the next state, or it
      panics and leaves a state behind.
    - The mutex [lock] is held by every method that touches a cache slot
      from its first to its last statement, so each such method is one
      atomic transition of the state; the lock itself has no field here.
    - A nil slice and an empty slice are both the empty list.
    - The iteration order of a Go map is left open: the last loop of
      [ServerPreferredResources] takes it as a [MapRange], and the
      properties hold for every one.
    - Logging is left out, and so is [RESTClient], which hands the call on
      to the provider and touches no cache slot.  [ClientForResource] takes
      the client pool, the object and its metadata as [Collaborators] it
      does not look into. *)

From stdpp Require Import base option strings list gmap fin_maps.

Open Scope string_scope.
Open Scope list_scope.

(** ** Strings *)

(** [strings.HasPrefix] *)
Fixpoint strings_HasPrefix (s prefix : string) {struct prefix} : bool :=
  match prefix, s with
  | EmptyString, _ => true
  | String _ _, EmptyString => false
  | String p prefix', String a s' =>
      if Ascii.eqb a p then strings_HasPrefix s' prefix' else false
  end.

(** [strings.Contains]: [substr] occurs somewhere within [s] *)
Fixpoint strings_Contains (s substr : string) : bool :=
  strings_HasPrefix s substr ||
  match s with
  | EmptyString => false
  | String _ s' => strings_Contains s' substr
  end.

(** ** The data of the discovery API (k8s.io/apimachinery) *)

(** The built-in interface [error], by the message of its method [Error]. *)
Record error := errorString { Error : string }.

(** metav1.APIResource (the fields the package reads) *)
Record APIResource := mkAPIResource {
  res_Name : string;
  res_Kind : string;
  res_Namespaced : bool }.

(** metav1.APIResourceList *)
Record APIResourceList := mkAPIResourceList {
  rl_GroupVersion : string;
  rl_APIResources : list APIResource }.

(** metav1.GroupVersionForDiscovery *)
Record GroupVersionForDiscovery := mkGroupVersionForDiscovery {
  gvd_GroupVersion : string;
  gvd_Version : string }.

(** metav1.APIGroup *)
Record APIGroup := mkAPIGroup {
  grp_Name : string;
  grp_Versions : list GroupVersionForDiscovery;
  grp_PreferredVersion : GroupVersionForDiscovery }.

(** metav1.APIGroupList *)
Record APIGroupList := mkAPIGroupList { Groups : list APIGroup }.

(** schema.GroupResource *)
Record GroupResource := mkGroupResource {
  gr_Group : string;
  gr_Resource : string }.

(** schema.GroupVersion *)
Record GroupVersion := mkGroupVersion {
  gv_Group : string;
  gv_Version : string }.

(** schema.GroupVersionKind *)
Record GroupVersionKind := mkGroupVersionKind {
  gvk_Group : string;
  gvk_Version : string;
  gvk_Kind : string }.

(** version.Info, swagger.ApiDeclaration and openapi_v2.Document are
    documents the cache stores and hands back without looking inside. *)
Record VersionInfo := mkVersionInfo { GitVersion : string }.
Record ApiDeclaration := mkApiDeclaration { ApiVersion : string }.
Record Document := mkDocument { Swagger : string }.

#[global] Instance error_eq_dec : EqDecision error.
Proof. solve_decision. Defined.
#[global] Instance APIResource_eq_dec : EqDecision APIResource.
Proof. solve_decision. Defined.
#[global] Instance APIResourceList_eq_dec : EqDecision APIResourceList.
Proof. solve_decision. Defined.
#[global] Instance GroupResource_eq_dec : EqDecision GroupResource.
Proof. solve_decision. Defined.
#[global] Instance GroupVersion_eq_dec : EqDecision GroupVersion.
Proof. solve_decision. Defined.

#[global] Instance GroupResource_countable : Countable GroupResource :=
  inj_countable' (λ k, (gr_Group k, gr_Resource k))
                 (λ p, mkGroupResource p.1 p.2)
                 (λ k, match k with mkGroupResource _ _ => eq_refl end).

#[global] Instance GroupVersion_countable : Countable GroupVersion :=
  inj_countable' (λ k, (gv_Group k, gv_Version k))
                 (λ p, mkGroupVersion p.1 p.2)
                 (λ k, match k with mkGroupVersion _ _ => eq_refl end).

(** [GroupVersion.String] of apimachinery: the version alone for the group
    without a name, "group/version" otherwise. *)
Definition GroupVersion_String (gv : GroupVersion) : string :=
  if decide (gv_Group gv = "") then gv_Version gv
  else gv_Group gv +:+ "/" +:+ gv_Version gv.

(** [GroupVersionKind.GroupVersion] *)
Definition gvk_GroupVersion (gvk : GroupVersionKind) : GroupVersion :=
  mkGroupVersion (gvk_Group gvk) (gvk_Version gvk).

(** [GroupVersionKind.String] of apimachinery *)
Definition GroupVersionKind_String (gvk : GroupVersionKind) : string :=
  gvk_Group gvk +:+ "/" +:+ gvk_Version gvk +:+ ", Kind=" +:+ gvk_Kind gvk.

(** ** Results, outcomes, Go maps *)

(** What a Go function returning a pointer to an [A] and an [error] hands
    back. *)
Definition reply (A : Type) : Type := option A * option error.

Inductive outcome (S A : Type) : Type :=
  | Returned (a : A) (s : S)
  | Panicked (s : S).
Arguments Returned {S A} a s.
Arguments Panicked {S A} s.

(** The state in which a call ends, however it ends. *)
Definition state_after {S A} (o : outcome S A) : S :=
  match o with Returned _ s => s | Panicked s => s end.

Definition panics {S A} (o : outcome S A) : bool :=
  match o with Returned _ _ => false | Panicked _ => true end.

(** [m[k]] for a map of pointers: nil for a key that is not there, and for
    every key of the nil map. *)
Definition map_index `{Countable K} {V} (m : option (gmap K (option V))) (k : K)
  : option V :=
  match m with
  | None => None
  | Some m => default None (m !! k)
  end.

(** ** The remote discovery provider *)

(** discovery.DiscoveryInterface, as far as the cache calls it.  A provider
    is a state of some type [W]; a call gives a reply and the next state. *)
Class DiscoveryInterface (W : Type) := {
  cl_ServerGroups : W → reply APIGroupList * W;
  cl_ServerResourcesForGroupVersion : string → W → reply APIResourceList * W;
  cl_ServerVersion : W → reply VersionInfo * W;
  cl_SwaggerSchema : GroupVersion → W → reply ApiDeclaration * W;
  cl_OpenAPISchema : W → reply Document * W }.

(** A provider that keeps the list of the calls made to the provider
    below it. *)
Inductive Call :=
  | CallServerGroups
  | CallServerResourcesForGroupVersion (groupVersion : string)
  | CallServerVersion
  | CallSwaggerSchema (version : GroupVersion)
  | CallOpenAPISchema.

Record Recorder (W : Type) := mkRecorder { inner : W; calls : list Call }.
Arguments mkRecorder {W} inner calls.
Arguments inner {W} r.
Arguments calls {W} r.

Definition record {W A} (call : Call) (f : W → A * W) (r : Recorder W)
  : A * Recorder W :=
  let '(a, w) := f (inner r) in (a, mkRecorder w (calls r ++ [call])).

#[global] Instance Recorder_DiscoveryInterface `{DiscoveryInterface W}
  : DiscoveryInterface (Recorder W) := {|
  cl_ServerGroups := record CallServerGroups cl_ServerGroups;
  cl_ServerResourcesForGroupVersion gv :=
    record (CallServerResourcesForGroupVersion gv)
           (cl_ServerResourcesForGroupVersion gv);
  cl_ServerVersion := record CallServerVersion cl_ServerVersion;
  cl_SwaggerSchema v := record (CallSwaggerSchema v) (cl_SwaggerSchema v);
  cl_OpenAPISchema := record CallOpenAPISchema cl_OpenAPISchema |}.

(** A provider without a state of its own: every call is answered from a
    fixed table. *)
Record StaticServer := mkStaticServer {
  ss_groups : reply APIGroupList;
  ss_resources : string → reply APIResourceList;
  ss_version : reply VersionInfo;
  ss_swagger : GroupVersion → reply ApiDeclaration;
  ss_openapi : reply Document }.

#[global] Instance StaticServer_DiscoveryInterface
  : DiscoveryInterface StaticServer := {|
  cl_ServerGroups s := (ss_groups s, s);
  cl_ServerResourcesForGroupVersion gv s := (ss_resources s gv, s);
  cl_ServerVersion s := (ss_version s, s);
  cl_SwaggerSchema v s := (ss_swagger s v, s);
  cl_OpenAPISchema s := (ss_openapi s, s) |}.

(** ** The cache *)

Record memcachedDiscoveryClient (W : Type) := mkClient {
  cl : W;
  servergroups : option APIGroupList;
  serverresources : option (gmap string (option APIResourceList));
  schemas : option (gmap string (option ApiDeclaration));
  schema : option Document;
  serverVersion : option VersionInfo }.
Arguments mkClient {W} cl servergroups serverresources schemas schema serverVersion.
Arguments cl {W} m.
Arguments servergroups {W} m.
Arguments serverresources {W} m.
Arguments schemas {W} m.
Arguments schema {W} m.
Arguments serverVersion {W} m.

Section Cache.
Context `{DiscoveryInterface W}.

Local Abbreviation client := (memcachedDiscoveryClient W).

Definition Invalidate (c : client) : client :=
  mkClient (cl c) None (Some ∅) (Some ∅) None None.

(** The composite literal [&memcachedDiscoveryClient{cl: cl}] leaves every
    other field at its zero value: nil pointers and nil maps. *)
Definition NewMemcachedDiscoveryClient (cl : W) : client :=
  let c := mkClient cl None None None None None in
  Invalidate c.

Definition Fresh (c : client) : bool := true.

Definition ServerGroups (c : client) : outcome client (reply APIGroupList) :=
  match servergroups c with
  | Some g => Returned (Some g, None) c
  | None =>
      let '((g, err), w) := cl_ServerGroups (cl c) in
      Returned (g, err)
        (mkClient w g (serverresources c) (schemas c) (schema c)
                  (serverVersion c))
  end.

(** The provider is called before the assignment to the map element is
    carried out, so a nil map panics after the call. *)
Definition ServerResourcesForGroupVersion (groupVersion : string) (c : client)
  : outcome client (reply APIResourceList) :=
  match map_index (serverresources c) groupVersion with
  | Some v => Returned (Some v, None) c
  | None =>
      let '((v, err), w) := cl_ServerResourcesForGroupVersion groupVersion (cl c) in
      match serverresources c with
      | None =>
          Panicked (mkClient w (servergroups c) None (schemas c) (schema c)
                             (serverVersion c))
      | Some m =>
          Returned (v, err)
            (mkClient w (servergroups c) (Some (<[groupVersion := v]> m))
                      (schemas c) (schema c) (serverVersion c))
      end
  end.

Definition ServerVersion (c : client) : outcome client (reply VersionInfo) :=
  match serverVersion c with
  | None =>
      let '((info, err), w) := cl_ServerVersion (cl c) in
      match err with
      | Some e =>
          Returned (None, Some e)
            (mkClient w (servergroups c) (serverresources c) (schemas c)
                      (schema c) (serverVersion c))
      | None =>
          Returned (info, None)
            (mkClient w (servergroups c) (serverresources c) (schemas c)
                      (schema c) info)
      end
  | Some info => Returned (Some info, None) c
  end.

Definition SwaggerSchema (version : GroupVersion) (c : client)
  : outcome client (reply ApiDeclaration) :=
  let key := GroupVersion_String version in
  match map_index (schemas c) key with
  | Some s => Returned (Some s, None) c
  | None =>
      let '((s, err), w) := cl_SwaggerSchema version (cl c) in
      match err with
      | Some e =>
          Returned (None, Some e)
            (mkClient w (servergroups c) (serverresources c) (schemas c)
                      (schema c) (serverVersion c))
      | None =>
          match schemas c with
          | None =>
              Panicked (mkClient w (servergroups c) (serverresources c) None
                                 (schema c) (serverVersion c))
          | Some m =>
              Returned (s, None)
                (mkClient w (servergroups c) (serverresources c)
                          (Some (<[key := s]> m)) (schema c) (serverVersion c))
          end
      end
  end.

Definition OpenAPISchema (c : client) : outcome client (reply Document) :=
  match schema c with
  | Some s => Returned (Some s, None) c
  | None =>
      let '((s, err), w) := cl_OpenAPISchema (cl c) in
      match err with
      | Some e =>
          Returned (None, Some e)
            (mkClient w (servergroups c) (serverresources c) (schemas c)
                      (schema c) (serverVersion c))
      | None =>
          Returned (s, None)
            (mkClient w (servergroups c) (serverresources c) (schemas c)
                      s (serverVersion c))
      end
  end.

(** [ServerResources]: the slice holds the pointers as they were
    returned, so its elements are options. *)
Fixpoint ServerResources_versions (versions : list GroupVersionForDiscovery)
    (result : list (option APIResourceList)) (c : client)
  : outcome client (list (option APIResourceList) + error) :=
  match versions with
  | [] => Returned (inl result) c
  | version :: versions' =>
      match ServerResourcesForGroupVersion (gvd_GroupVersion version) c with
      | Panicked c' => Panicked c'
      | Returned (_, Some err) c' => Returned (inr err) c'
      | Returned (resources, None) c' =>
          ServerResources_versions versions' (result ++ [resources]) c'
      end
  end.

Fixpoint ServerResources_groups (groups : list APIGroup)
    (result : list (option APIResourceList)) (c : client)
  : outcome client (list (option APIResourceList) + error) :=
  match groups with
  | [] => Returned (inl result) c
  | apiGroup :: groups' =>
      match ServerResources_versions (grp_Versions apiGroup) result c with
      | Panicked c' => Panicked c'
      | Returned (inr err) c' => Returned (inr err) c'
      | Returned (inl result') c' => ServerResources_groups groups' result' c'
      end
  end.

Definition ServerResources (c : client)
  : outcome client (list (option APIResourceList) * option error) :=
  match ServerGroups c with
  | Panicked c' => Panicked c'
  | Returned (_, Some err) c' => Returned ([], Some err) c'
  | Returned (None, None) c' => Panicked c'
  | Returned (Some apiGroups, None) c' =>
      match ServerResources_groups (Groups apiGroups) [] c' with
      | Panicked c'' => Panicked c''
      | Returned (inr err) c'' => Returned ([], Some err) c''
      | Returned (inl result) c'' => Returned (result, None) c''
      end
  end.

End Cache.

(** ** The preferred-resource aggregation *)

(** The local variables of [ServerPreferredResources].  The elements of
    [result] are pointers to list headers allocated one per iteration; the
    model keeps the headers themselves in [result], and a pointer to one of
    them, as [gvApiResourceLists] holds it, is its position in [result]. *)
Record selection := mkSelection {
  grVersions : gmap GroupResource string;
  grApiResources : gmap GroupResource APIResource;
  gvApiResourceLists : gmap GroupVersion nat;
  result : list APIResourceList }.

Definition empty_selection : selection := mkSelection ∅ ∅ ∅ [].

(** The body of the loop over [apiResourceList.APIResources]. *)
Definition select_resource (apiGroup : APIGroup)
    (version : GroupVersionForDiscovery) (st : selection)
    (apiResource : APIResource) : selection :=
  if strings_Contains (res_Name apiResource) "/" then st
  else
    let gv := mkGroupResource (grp_Name apiGroup) (res_Name apiResource) in
    if decide (is_Some (grApiResources st !! gv) ∧
               gvd_Version version ≠ gvd_Version (grp_PreferredVersion apiGroup))
    then st
    else mkSelection (<[gv := gvd_Version version]> (grVersions st))
                     (<[gv := apiResource]> (grApiResources st))
                     (gvApiResourceLists st) (result st).

(** The body of the loop over [apiGroup.Versions], after the resource list
    of the version has been fetched. *)
Definition select_version (apiGroup : APIGroup)
    (version : GroupVersionForDiscovery) (apiResourceList : APIResourceList)
    (st : selection) : selection :=
  let groupVersion := mkGroupVersion (grp_Name apiGroup) (gvd_Version version) in
  let emptyApiResourceList := mkAPIResourceList (gvd_GroupVersion version) [] in
  foldl (select_resource apiGroup version)
        (mkSelection (grVersions st) (grApiResources st)
                     (<[groupVersion := length (result st)]> (gvApiResourceLists st))
                     (result st ++ [emptyApiResourceList]))
        (rl_APIResources apiResourceList).

(** The body of the last loop: append the selected resource to the list
    header its group-version points to.  [None] is a nil pointer
    dereference. *)
Definition group_selected (st : selection) (result : list APIResourceList)
    (kv : GroupResource * APIResource) : option (list APIResourceList) :=
  let '(groupResource, apiResource) := kv in
  let version := default "" (grVersions st !! groupResource) in
  let groupVersion := mkGroupVersion (gr_Group groupResource) version in
  p ← gvApiResourceLists st !! groupVersion;
  apiResourceList ← result !! p;
  Some (<[p := mkAPIResourceList (rl_GroupVersion apiResourceList)
                 (rl_APIResources apiResourceList ++ [apiResource])]> result).

Fixpoint group_loop (st : selection) (result : list APIResourceList)
    (kvs : list (GroupResource * APIResource))
  : option (list APIResourceList) :=
  match kvs with
  | [] => Some result
  | kv :: kvs' =>
      match group_selected st result kv with
      | None => None
      | Some result' => group_loop st result' kvs'
      end
  end.

(** The order in which [range] walks a Go map is not specified: any
    order of the entries is possible. *)
Record MapRange := mkMapRange {
  range_order :> list (GroupResource * APIResource) →
                 list (GroupResource * APIResource);
  range_order_perm : ∀ l, range_order l ≡ₚ l }.

Definition in_order : MapRange := mkMapRange id (λ l, reflexivity l).
Definition in_reverse : MapRange := mkMapRange reverse reverse_Permutation.

(** Modelled from the spec: [discovery.FilteredBy] belongs to client-go, not
    to this repository.  It keeps, list by list, the resources the predicate
    accepts.  client-go drops a list left without resources, the
    specification speaks of the same buckets with fewer resources; the flag
    [dropEmpty] covers both. *)
Definition FilteredBy (dropEmpty : bool) (pred : string → APIResource → bool)
    (rls : list APIResourceList) : list APIResourceList :=
  omap (λ rl,
          let filtered :=
            mkAPIResourceList (rl_GroupVersion rl)
              (filter (λ r, pred (rl_GroupVersion rl) r = true) (rl_APIResources rl)) in
          if dropEmpty && bool_decide (rl_APIResources filtered = [])
          then None else Some filtered) rls.

Section Aggregator.
Context `{DiscoveryInterface W}.

Local Abbreviation client := (memcachedDiscoveryClient W).

Fixpoint select_versions (apiGroup : APIGroup)
    (versions : list GroupVersionForDiscovery) (st : selection) (c : client)
  : outcome client (selection + error) :=
  match versions with
  | [] => Returned (inl st) c
  | version :: versions' =>
      match ServerResourcesForGroupVersion (gvd_GroupVersion version) c with
      | Panicked c' => Panicked c'
      | Returned (_, Some err) c' => Returned (inr err) c'
      | Returned (None, None) c' => Panicked c'
      | Returned (Some apiResourceList, None) c' =>
          select_versions apiGroup versions'
            (select_version apiGroup version apiResourceList st) c'
      end
  end.

Fixpoint select_groups (groups : list APIGroup) (st : selection) (c : client)
  : outcome client (selection + error) :=
  match groups with
  | [] => Returned (inl st) c
  | apiGroup :: groups' =>
      match select_versions apiGroup (grp_Versions apiGroup) st c with
      | Panicked c' => Panicked c'
      | Returned (inr err) c' => Returned (inr err) c'
      | Returned (inl st') c' => select_groups groups' st' c'
      end
  end.

Definition ServerPreferredResources (range : MapRange) (c : client)
  : outcome client (list APIResourceList * option error) :=
  match ServerGroups c with
  | Panicked c' => Panicked c'
  | Returned (_, Some err) c' => Returned ([], Some err) c'
  | Returned (None, None) c' => Panicked c'
  | Returned (Some serverGroupList, None) c' =>
      match select_groups (Groups serverGroupList) empty_selection c' with
      | Panicked c'' => Panicked c''
      | Returned (inr err) c'' => Returned ([], Some err) c''
      | Returned (inl st) c'' =>
          match group_loop st (result st)
                  (range (map_to_list (grApiResources st))) with
          | None => Panicked c''
          | Some result => Returned (result, None) c''
          end
      end
  end.

Definition ServerPreferredNamespacedResources (dropEmpty : bool)
    (range : MapRange) (c : client)
  : outcome client (list APIResourceList * option error) :=
  match ServerPreferredResources range c with
  | Panicked c' => Panicked c'
  | Returned (all, err) c' =>
      Returned (FilteredBy dropEmpty (λ gv r, res_Namespaced r) all, err) c'
  end.

End Aggregator.

(** ** The resource of a group-version-kind *)

(** discovery.ServerResourcesInterface, as [serverResourceForGroupVersionKind]
    calls it. *)
Class ServerResourcesInterface (D : Type) := {
  disco_ServerResourcesForGroupVersion :
    string → D → outcome D (reply APIResourceList) }.

#[global] Instance memcached_ServerResourcesInterface `{DiscoveryInterface W}
  : ServerResourcesInterface (memcachedDiscoveryClient W) := {|
  disco_ServerResourcesForGroupVersion := ServerResourcesForGroupVersion |}.

(** [fmt.Errorf] with the two formats of this file. *)
Definition Errorf_unable_to_fetch (gv : GroupVersion) (err : error) : error :=
  errorString ("unable to fetch resource description for " +:+
               GroupVersion_String gv +:+ ": " +:+ Error err).

Definition Errorf_unable_to_handle (gvk : GroupVersionKind) : error :=
  errorString ("Server is unable to handle " +:+ GroupVersionKind_String gvk).

(** The loop over [resources.APIResources]: the first resource of the
    kind. *)
Fixpoint resource_of_kind (kind : string) (resources : list APIResource)
  : option APIResource :=
  match resources with
  | [] => None
  | r :: resources' =>
      if decide (res_Kind r = kind) then Some r
      else resource_of_kind kind resources'
  end.

Definition serverResourceForGroupVersionKind `{ServerResourcesInterface D}
    (gvk : GroupVersionKind) (disco : D) : outcome D (reply APIResource) :=
  match disco_ServerResourcesForGroupVersion
          (GroupVersion_String (gvk_GroupVersion gvk)) disco with
  | Panicked disco' => Panicked disco'
  | Returned (_, Some err) disco' =>
      Returned (None, Some (Errorf_unable_to_fetch (gvk_GroupVersion gvk) err))
               disco'
  | Returned (None, None) disco' => Panicked disco'
  | Returned (Some resources, None) disco' =>
      match resource_of_kind (gvk_Kind gvk) (rl_APIResources resources) with
      | Some r => Returned (Some r, None) disco'
      | None => Returned (None, Some (Errorf_unable_to_handle gvk)) disco'
      end
  end.

(** ** Examples *)

Definition deployments : APIResource := mkAPIResource "deployments" "Deployment" true.

Definition apps_groups : APIGroupList :=
  mkAPIGroupList
    [mkAPIGroup "apps"
       [mkGroupVersionForDiscovery "apps/v1beta1" "v1beta1";
        mkGroupVersionForDiscovery "apps/v1" "v1"]
       (mkGroupVersionForDiscovery "apps/v1" "v1")].

Definition apps_server : StaticServer :=
  mkStaticServer
    (Some apps_groups, None)
    (λ gv, if decide (gv = "apps/v1beta1") then
             (Some (mkAPIResourceList "apps/v1beta1" [deployments]), None)
           else if decide (gv = "apps/v1") then
             (Some (mkAPIResourceList "apps/v1" [deployments]), None)
           else (None, Some (errorString "not found")))
    (Some (mkVersionInfo "v1.9.0"), None)
    (λ _, (None, Some (errorString "not found")))
    (None, Some (errorString "not found")).

(** A run of the selection loops against [apps_server], step by step. *)
Definition apps_client : memcachedDiscoveryClient StaticServer :=
  NewMemcachedDiscoveryClient apps_server.

Definition apps_client1 : memcachedDiscoveryClient StaticServer :=
  state_after (ServerGroups apps_client).

Definition apps_selected
  : outcome (memcachedDiscoveryClient StaticServer) (selection + error) :=
  select_groups (Groups apps_groups) empty_selection apps_client1.

Definition apps_selection : selection :=
  match apps_selected with
  | Returned (inl st) _ => st
  | _ => empty_selection
  end.

Definition apps_client2 : memcachedDiscoveryClient StaticServer :=
  state_after apps_selected.

(** The core group, with a subresource and a resource without a
    namespace, and a run of the selection loops against it. *)
Definition pods : APIResource := mkAPIResource "pods" "Pod" true.
Definition pods_status : APIResource := mkAPIResource "pods/status" "Pod" true.
Definition nodes : APIResource := mkAPIResource "nodes" "Node" false.

Definition core_groups : APIGroupList :=
  mkAPIGroupList
    [mkAPIGroup "" [mkGroupVersionForDiscovery "v1" "v1"]
                (mkGroupVersionForDiscovery "v1" "v1")].

Definition core_server : StaticServer :=
  mkStaticServer
    (Some core_groups, None)
    (λ gv, if decide (gv = "v1") then
             (Some (mkAPIResourceList "v1" [pods; pods_status; nodes]), None)
           else (None, Some (errorString "not found")))
    (Some (mkVersionInfo "v1.9.0"), None)
    (λ _, (None, Some (errorString "not found")))
    (None, Some (errorString "not found")).

Definition core_client : memcachedDiscoveryClient StaticServer :=
  NewMemcachedDiscoveryClient core_server.

Definition core_client1 : memcachedDiscoveryClient StaticServer :=
  state_after (ServerGroups core_client).

Definition core_selected
  : outcome (memcachedDiscoveryClient StaticServer) (selection + error) :=
  select_groups (Groups core_groups) empty_selection core_client1.

Definition core_selection : selection :=
  match core_selected with
  | Returned (inl st) _ => st
  | _ => empty_selection
  end.

Definition core_client2 : memcachedDiscoveryClient StaticServer :=
  state_after core_selected.

(** A provider that is down: every call fails and hands back nil. *)
Definition unreachable : error := errorString "connection refused".

Definition down_server : StaticServer :=
  mkStaticServer (None, Some unreachable) (λ _, (None, Some unreachable))
                 (None, Some unreachable) (λ _, (None, Some unreachable))
                 (None, Some unreachable).

(** A provider that fails and still hands back what it decoded so far. *)
Definition partial_server : StaticServer :=
  mkStaticServer (Some (mkAPIGroupList []), Some unreachable)
                 (λ gv, (Some (mkAPIResourceList gv []), Some unreachable))
                 (None, Some unreachable) (λ _, (None, Some unreachable))
                 (None, Some unreachable).

(** ** The read-through methods, taken together *)

Inductive Method :=
  | MServerGroups
  | MServerResourcesForGroupVersion (groupVersion : string)
  | MServerVersion
  | MSwaggerSchema (version : GroupVersion)
  | MOpenAPISchema.

(** The call a method makes to the provider on a miss. *)
Definition call_of (m : Method) : Call :=
  match m with
  | MServerGroups => CallServerGroups
  | MServerResourcesForGroupVersion gv => CallServerResourcesForGroupVersion gv
  | MServerVersion => CallServerVersion
  | MSwaggerSchema v => CallSwaggerSchema v
  | MOpenAPISchema => CallOpenAPISchema
  end.

(** The place in the cache a method reads and fills. *)
Inductive Slot :=
  | SlotServergroups
  | SlotServerresources (key : string)
  | SlotServerVersion
  | SlotSchemas (key : string)
  | SlotSchema.

Definition slot_of (m : Method) : Slot :=
  match m with
  | MServerGroups => SlotServergroups
  | MServerResourcesForGroupVersion gv => SlotServerresources gv
  | MServerVersion => SlotServerVersion
  | MSwaggerSchema v => SlotSchemas (GroupVersion_String v)
  | MOpenAPISchema => SlotSchema
  end.

(** What is stored in one of the slots, or returned from it. *)
Inductive Value :=
  | GroupsValue (v : option APIGroupList)
  | ResourcesValue (v : option APIResourceList)
  | VersionValue (v : option VersionInfo)
  | SwaggerValue (v : option ApiDeclaration)
  | OpenAPIValue (v : option Document).

Definition is_nil (v : Value) : bool :=
  match v with
  | GroupsValue None | ResourcesValue None | VersionValue None
  | SwaggerValue None | OpenAPIValue None => true
  | _ => false
  end.

(** The nil a method returns next to an error of its own making. *)
Definition nil_value (m : Method) : Value :=
  match m with
  | MServerGroups => GroupsValue None
  | MServerResourcesForGroupVersion _ => ResourcesValue None
  | MServerVersion => VersionValue None
  | MSwaggerSchema _ => SwaggerValue None
  | MOpenAPISchema => OpenAPIValue None
  end.

Definition answer {S A} (inj : option A → Value) (o : outcome S (reply A))
  : outcome S (Value * option error) :=
  match o with
  | Returned (v, err) s => Returned (inj v, err) s
  | Panicked s => Panicked s
  end.

(** The operations of the cache a caller can run. *)
Inductive Op :=
  | OpInvalidate
  | OpFresh
  | OpRead (m : Method)
  | OpServerResources
  | OpServerPreferredResources (range : MapRange)
  | OpServerPreferredNamespacedResources (dropEmpty : bool) (range : MapRange).

Section Reads.
Context `{DiscoveryInterface W}.

Local Abbreviation client := (memcachedDiscoveryClient W).

Definition read (m : Method) (c : client) : outcome client (Value * option error) :=
  match m with
  | MServerGroups => answer GroupsValue (ServerGroups c)
  | MServerResourcesForGroupVersion gv =>
      answer ResourcesValue (ServerResourcesForGroupVersion gv c)
  | MServerVersion => answer VersionValue (ServerVersion c)
  | MSwaggerSchema v => answer SwaggerValue (SwaggerSchema v c)
  | MOpenAPISchema => answer OpenAPIValue (OpenAPISchema c)
  end.

(** The call of a method to the provider. *)
Definition fetch (m : Method) (w : W) : (Value * option error) * W :=
  match m with
  | MServerGroups =>
      let '((v, err), w') := cl_ServerGroups w in ((GroupsValue v, err), w')
  | MServerResourcesForGroupVersion gv =>
      let '((v, err), w') := cl_ServerResourcesForGroupVersion gv w in
      ((ResourcesValue v, err), w')
  | MServerVersion =>
      let '((v, err), w') := cl_ServerVersion w in ((VersionValue v, err), w')
  | MSwaggerSchema version =>
      let '((v, err), w') := cl_SwaggerSchema version w in
      ((SwaggerValue v, err), w')
  | MOpenAPISchema =>
      let '((v, err), w') := cl_OpenAPISchema w in ((OpenAPIValue v, err), w')
  end.

(** What has been assigned to a slot: for a field, its value; for a map,
    the element under the key, if the key is there. *)
Definition slot_entry (s : Slot) (c : client) : option Value :=
  match s with
  | SlotServergroups => Some (GroupsValue (servergroups c))
  | SlotServerresources key =>
      m ← serverresources c; ResourcesValue <$> m !! key
  | SlotServerVersion => Some (VersionValue (serverVersion c))
  | SlotSchemas key => m ← schemas c; SwaggerValue <$> m !! key
  | SlotSchema => Some (OpenAPIValue (schema c))
  end.

(** The slot holds nil, which every read-through method takes for a miss. *)
Definition slot_empty (s : Slot) (c : client) : Prop :=
  match s with
  | SlotServergroups => servergroups c = None
  | SlotServerresources key => map_index (serverresources c) key = None
  | SlotServerVersion => serverVersion c = None
  | SlotSchemas key => map_index (schemas c) key = None
  | SlotSchema => schema c = None
  end.

(** Both maps of the cache have been made. *)
Definition maps_made (c : client) : Prop :=
  is_Some (serverresources c) ∧ is_Some (schemas c).

(** The same cache in front of another state of the provider. *)
Definition with_cl (c : client) (w : W) : client :=
  mkClient w (servergroups c) (serverresources c) (schemas c) (schema c)
           (serverVersion c).

Definition run_op (op : Op) (c : client) : client :=
  match op with
  | OpInvalidate => Invalidate c
  | OpFresh => if Fresh c then c else c
  | OpRead m => state_after (read m c)
  | OpServerResources => state_after (ServerResources c)
  | OpServerPreferredResources range =>
      state_after (ServerPreferredResources range c)
  | OpServerPreferredNamespacedResources dropEmpty range =>
      state_after (ServerPreferredNamespacedResources dropEmpty range c)
  end.

Definition run_ops (ops : list Op) (c : client) : client :=
  foldl (λ c op, run_op op c) c ops.

Definition run_reads (ms : list Method) (c : client) : client :=
  foldl (λ c m, state_after (read m c)) c ms.

End Reads.

(** ** The aggregation, as a fold over what was fetched *)

(** One turn of the loop over the versions: the group, the version and the
    resource list fetched for it. *)
Definition visit : Type := APIGroup * GroupVersionForDiscovery * APIResourceList.

(** The order in which the two outer loops walk the versions of the
    groups. *)
Definition visitation (groups : list APIGroup)
  : list (APIGroup * GroupVersionForDiscovery) :=
  flat_map (λ g, (λ ver, (g, ver)) <$> grp_Versions g) groups.

Definition select_visits (vs : list visit) (st : selection) : selection :=
  foldl (λ st (v : visit), select_version v.1.1 v.1.2 v.2 st) st vs.

(** The list header a selected resource is appended to. *)
Definition pointer (st : selection) (k : GroupResource) : option nat :=
  gvApiResourceLists st !!
    mkGroupVersion (gr_Group k) (default "" (grVersions st !! k)).

(** The selected resources of the list header at position [p], in the order
    of [map_to_list]. *)
Definition winners_at (st : selection) (p : nat) : list APIResource :=
  (filter (λ kv, pointer st kv.1 = Some p) (map_to_list (grApiResources st))).*2.

(** What the selection has recorded for a key. *)
Definition recorded (st : selection) (k : GroupResource)
  : option (string * APIResource) :=
  v ← grVersions st !! k; r ← grApiResources st !! k; Some (v, r).

(** The tie-break in the words of the specification: the first version seen
    is recorded; a version seen later replaces the recorded one if and only
    if it is the preferred version of the group. *)
Definition tie_break (recorded : option (string * APIResource))
    (seen : string * string * APIResource) : option (string * APIResource) :=
  let '(version, preferred, r) := seen in
  match recorded with
  | None => Some (version, r)
  | Some old => if decide (version = preferred) then Some (version, r) else Some old
  end.

(** The occurrences of a key in one resource list and in a list of visits,
    in the order of the loops: the version, the preferred version of the
    group, and the resource. *)
Definition sightings_in (k : GroupResource) (g : APIGroup)
    (ver : GroupVersionForDiscovery) (rs : list APIResource)
  : list (string * string * APIResource) :=
  flat_map (λ r, if strings_Contains (res_Name r) "/" then []
                 else if decide (mkGroupResource (grp_Name g) (res_Name r) = k)
                      then [(gvd_Version ver, gvd_Version (grp_PreferredVersion g), r)]
                      else []) rs.

Definition sightings (k : GroupResource) (vs : list visit)
  : list (string * string * APIResource) :=
  flat_map (λ v : visit, sightings_in k v.1.1 v.1.2 (rl_APIResources v.2)) vs.

(** The number of resources listed under a group-version. *)
Definition resource_count (gv : string) (lists : list APIResourceList) : nat :=
  sum_list ((λ rl, length (rl_APIResources rl)) <$>
            filter (λ rl, rl_GroupVersion rl = gv) lists).

(** The lists a call returned; none if it panicked. *)
Definition returned_lists {S} (o : outcome S (list APIResourceList * option error))
  : list APIResourceList :=
  match o with Returned (lists, _) _ => lists | Panicked _ => [] end.

(** What the selection loops keep true, [hs] being the versions visited so
    far. *)
Record selection_inv (hs : list (APIGroup * GroupVersionForDiscovery))
    (st : selection) : Prop := {
  inv_headers :
    result st = (λ h, mkAPIResourceList (gvd_GroupVersion h.2) []) <$> hs;
  inv_pointers : ∀ gv p,
    gvApiResourceLists st !! gv = Some p →
    ∃ g ver, hs !! p = Some (g, ver) ∧
             gv = mkGroupVersion (grp_Name g) (gvd_Version ver);
  inv_same_keys : ∀ k,
    is_Some (grVersions st !! k) ↔ is_Some (grApiResources st !! k);
  inv_versions : ∀ k v,
    grVersions st !! k = Some v →
    is_Some (gvApiResourceLists st !! mkGroupVersion (gr_Group k) v);
  inv_names : ∀ k r,
    grApiResources st !! k = Some r →
    gr_Resource k = res_Name r ∧ strings_Contains (res_Name r) "/" = false }.

Section Fetched.
Context `{DiscoveryInterface W}.

(** The chain of successful fetches behind a list of visits. *)
Inductive fetched : memcachedDiscoveryClient W → list visit →
                    memcachedDiscoveryClient W → Prop :=
  | fetched_nil c : fetched c [] c
  | fetched_cons c c1 c2 g ver rl vs :
      ServerResourcesForGroupVersion (gvd_GroupVersion ver) c
        = Returned (Some rl, None) c1 →
      fetched c1 vs c2 →
      fetched c ((g, ver, rl) :: vs) c2.
End Fetched.

(** The lists returned, in terms of the selection. *)
Definition grouped (hs : list (APIGroup * GroupVersionForDiscovery))
    (st : selection) (out : list APIResourceList) : Prop :=
  Forall2 (λ (h : APIGroup * GroupVersionForDiscovery) rl,
             rl_GroupVersion rl = gvd_GroupVersion h.2) hs out ∧
  ∀ p rl, out !! p = Some rl → rl_APIResources rl ≡ₚ winners_at st p.

(** ** Two statements, as the specification makes them *)

Section Stated.
Context `{DiscoveryInterface W}.

Local Abbreviation client := (memcachedDiscoveryClient (Recorder W)).

(** The statement that two calls in a row cost one call to the provider
    and give the same value twice, at one method and one state. *)
Definition twice_is_once (m : Method) (c : client) : Prop :=
  let o1 := read m c in
  let o2 := read m (state_after o1) in
  calls (cl (state_after o2)) = calls (cl c) ++ [call_of m] ∧
  ∃ v err1 err2 c1 c2,
    o1 = Returned (v, err1) c1 ∧ o2 = Returned (v, err2) c2.

(** The statement that a nil stored by a failed fetch is served from the
    cache by the next call, at one state. *)
Definition failed_fetch_served_as_nil (m : Method) (c : client) : Prop :=
  ∀ e w, slot_empty (slot_of m) c →
         fetch m (cl c) = ((nil_value m, Some e), w) →
         let c1 := state_after (read m c) in
         slot_entry (slot_of m) c1 = Some (nil_value m) ∧
         read m c1 = Returned (nil_value m, None) c1.

End Stated.

(** The cache in front of a recorder, new, and after some reads. *)
Definition recorded_apps_client : memcachedDiscoveryClient (Recorder StaticServer) :=
  NewMemcachedDiscoveryClient (mkRecorder apps_server []).

Definition used_apps_client : memcachedDiscoveryClient (Recorder StaticServer) :=
  run_reads [MServerGroups; MServerResourcesForGroupVersion "apps/v1";
             MServerVersion] recorded_apps_client.

(** ** Chains of fetches, and the loops over the versions in one list *)

(** The group-version strings the loops over the groups and their versions
    fetch, in the order of the loops. *)
Definition group_versions (groups : list APIGroup) : list string :=
  (λ h, gvd_GroupVersion h.2) <$> visitation groups.

Section Fetches.
Context `{DiscoveryInterface W}.

Local Abbreviation client := (memcachedDiscoveryClient W).

(** A chain of calls of [ServerResourcesForGroupVersion] that all return
    without an error: the keys, and the pointers returned, nil or not. *)
Inductive fetches : client → list string → list (option APIResourceList) →
                    client → Prop :=
  | fetches_nil c : fetches c [] [] c
  | fetches_cons c c1 c2 k r ks rs :
      ServerResourcesForGroupVersion k c = Returned (r, None) c1 →
      fetches c1 ks rs c2 →
      fetches c (k :: ks) (r :: rs) c2.

(** The two selection loops as one loop over the versions of all groups. *)
Fixpoint select_headers (hs : list (APIGroup * GroupVersionForDiscovery))
    (st : selection) (c : client) : outcome client (selection + error) :=
  match hs with
  | [] => Returned (inl st) c
  | h :: hs' =>
      match ServerResourcesForGroupVersion (gvd_GroupVersion h.2) c with
      | Panicked c' => Panicked c'
      | Returned (_, Some err) c' => Returned (inr err) c'
      | Returned (None, None) c' => Panicked c'
      | Returned (Some apiResourceList, None) c' =>
          select_headers hs' (select_version h.1 h.2 apiResourceList st) c'
      end
  end.

End Fetches.

(** The provider of [apps_server], with another answer for "apps/v1". *)
Definition apps_server_answering (v1 : reply APIResourceList) : StaticServer :=
  mkStaticServer
    (Some apps_groups, None)
    (λ gv, if decide (gv = "apps/v1") then v1 else ss_resources apps_server gv)
    (ss_version apps_server) (ss_swagger apps_server) (ss_openapi apps_server).

(** A cache in front of it, after the group list and after the fetch for
    "apps/v1beta1". *)
Definition apps_client_answering (v1 : reply APIResourceList)
  : memcachedDiscoveryClient StaticServer :=
  NewMemcachedDiscoveryClient (apps_server_answering v1).

Definition apps_client_answering1 (v1 : reply APIResourceList)
  : memcachedDiscoveryClient StaticServer :=
  state_after (ServerGroups (apps_client_answering v1)).

Definition apps_client_answering2 (v1 : reply APIResourceList)
  : memcachedDiscoveryClient StaticServer :=
  state_after (ServerResourcesForGroupVersion "apps/v1beta1"
                 (apps_client_answering1 v1)).

Definition apps_client_answering3 (v1 : reply APIResourceList)
  : memcachedDiscoveryClient StaticServer :=
  state_after (ServerResourcesForGroupVersion "apps/v1"
                 (apps_client_answering2 v1)).

(** ** What a slot holds, and kinds of operations and calls *)

#[global] Instance Slot_eq_dec : EqDecision Slot.
Proof. solve_decision. Defined.

(** The pointer a read-through method finds in its slot. *)
Definition slot_value {W} (s : Slot) (c : memcachedDiscoveryClient W) : Value :=
  match s with
  | SlotServergroups => GroupsValue (servergroups c)
  | SlotServerresources key => ResourcesValue (map_index (serverresources c) key)
  | SlotServerVersion => VersionValue (serverVersion c)
  | SlotSchemas key => SwaggerValue (map_index (schemas c) key)
  | SlotSchema => OpenAPIValue (schema c)
  end.

(** The operations that walk over the groups and their versions. *)
Definition walks (op : Op) : bool :=
  match op with
  | OpServerResources | OpServerPreferredResources _
  | OpServerPreferredNamespacedResources _ _ => true
  | _ => false
  end.

(** The calls for the group list and for a resource list. *)
Definition discovery_call (call : Call) : bool :=
  match call with
  | CallServerGroups | CallServerResourcesForGroupVersion _ => true
  | _ => false
  end.

(** A provider with a schema for every version, and two versions that are
    written the same way. *)
Definition swagger_server : StaticServer :=
  mkStaticServer (ss_groups apps_server) (ss_resources apps_server)
                 (ss_version apps_server)
                 (λ v, (Some (mkApiDeclaration (gv_Version v)), None))
                 (ss_openapi apps_server).

Definition version_a_bc : GroupVersion := mkGroupVersion "a" "b/c".
Definition version_ab_c : GroupVersion := mkGroupVersion "a/b" "c".

(** ** The client for a resource *)

(** What [ClientForResource] is handed and does not look into: the client
    pool [P] with the clients [C] it gives out, the resource clients [R]
    such a client hands out, the objects [O] and their metadata [M].
    A pool is a state, like a provider; the call for a client gives the
    client, an error or not, and the next state. *)
Record Collaborators (P C R O M : Type) := mkCollaborators {
  pool_ClientForGroupVersionKind : GroupVersionKind → P → (C * option error) * P;
  client_Resource : C → option APIResource → string → R;
  obj_GroupVersionKind : O → GroupVersionKind;
  meta_Accessor : O → reply M;
  meta_GetNamespace : M → string }.
Arguments mkCollaborators {P C R O M} _ _ _ _ _.
Arguments pool_ClientForGroupVersionKind {P C R O M} _ _ _.
Arguments client_Resource {P C R O M} _ _ _ _.
Arguments obj_GroupVersionKind {P C R O M} _ _.
Arguments meta_Accessor {P C R O M} _ _.
Arguments meta_GetNamespace {P C R O M} _ _.

(** The state is that of the pool and that of the discovery client.  The
    metadata is an interface value: nil next to no error is a call of a
    method of nil. *)
Definition ClientForResource {P C R O M} `{ServerResourcesInterface D}
    (env : Collaborators P C R O M) (obj : O) (defNs : string) (s : P * D)
  : outcome (P * D) (option R * option error) :=
  let gvk := obj_GroupVersionKind env obj in
  let '((client, err), pool) := pool_ClientForGroupVersionKind env gvk s.1 in
  match err with
  | Some e => Returned (None, Some e) (pool, s.2)
  | None =>
      match serverResourceForGroupVersionKind gvk s.2 with
      | Panicked disco => Panicked (pool, disco)
      | Returned (_, Some e) disco => Returned (None, Some e) (pool, disco)
      | Returned (resource, None) disco =>
          match meta_Accessor env obj with
          | (_, Some e) => Returned (None, Some e) (pool, disco)
          | (None, None) => Panicked (pool, disco)
          | (Some meta, None) =>
              let namespace := meta_GetNamespace env meta in
              let namespace :=
                if decide (namespace = "") then defNs else namespace in
              Returned (Some (client_Resource env client resource namespace), None)
                       (pool, disco)
          end
      end
  end.

(** Objects with a group-version-kind and a namespace, a pool that counts
    the clients it gave out, and resource clients that show what they were
    made of. *)
Record example_object := mkExampleObject {
  eo_kind : GroupVersionKind;
  eo_namespace : string }.

Definition example_env
  : Collaborators nat GroupVersionKind
      (GroupVersionKind * option APIResource * string)%type
      example_object example_object :=
  mkCollaborators (λ gvk n, ((gvk, None), S n))
                  (λ client resource namespace, (client, resource, namespace))
                  eo_kind
                  (λ obj, (Some obj, None))
                  eo_namespace.

Definition deployment_in (namespace : string) : example_object :=
  mkExampleObject (mkGroupVersionKind "apps" "v1" "Deployment") namespace.

(** The lists the two runs against the example providers return. *)
Definition apps_preferred : list APIResourceList :=
  [mkAPIResourceList "apps/v1beta1" []; mkAPIResourceList "apps/v1" [deployments]].

Definition apps_listed : list (option APIResourceList) :=
  [Some (mkAPIResourceList "apps/v1beta1" [deployments]);
   Some (mkAPIResourceList "apps/v1" [deployments])].

Definition core_preferred : list APIResourceList :=
  [mkAPIResourceList "v1" [pods; nodes]].

(** ** A provider that always gives the same answers *)

(** The value a provider without a state gives for a method. *)
Definition provider_value (s : StaticServer) (m : Method) : Value :=
  (fetch m s).1.1.

(** The cache is in front of [s], and whatever a slot holds is a value [s]
    gives for a method of that slot. *)
Definition coherent (s : StaticServer) (c : memcachedDiscoveryClient StaticServer)
  : Prop :=
  cl c = s ∧
  ∀ sl, is_nil (slot_value sl c) = false →
        ∃ m, slot_of m = sl ∧ provider_value s m = slot_value sl c.

(** ** A third statement, as the specification makes it *)

(** The statement that the lookup of the resource of a group-version-kind
    returns, and returns an error exactly when the fetch of the resource
    list gave an error or no resource of the list is of the kind, at one
    group-version-kind and one state of the discovery client. *)
Definition returns_error_exactly_when_no_match `{ServerResourcesInterface D}
    (gvk : GroupVersionKind) (disco : D) : Prop :=
  ∀ resources ferr disco',
    disco_ServerResourcesForGroupVersion
      (GroupVersion_String (gvk_GroupVersion gvk)) disco
      = Returned (resources, ferr) disco' →
    ∃ res err disco'',
      serverResourceForGroupVersionKind gvk disco = Returned (res, err) disco'' ∧
      (is_Some err ↔
         is_Some ferr ∨
         ∀ rl, resources = Some rl →
               Forall (λ x, res_Kind x ≠ gvk_Kind gvk) (rl_APIResources rl)).

(** * Properties of the cache *)

Section CacheFacts.
Context `{DiscoveryInterface W}.

Local Abbreviation client := (memcachedDiscoveryClient W).

Lemma Invalidate_maps_made (c : client) : maps_made (Invalidate c).
Proof. split; eauto. Qed.

Lemma Invalidate_slot_empty (s : Slot) (c : client) : slot_empty s (Invalidate c).
Proof. destruct s; simpl; try done; by rewrite lookup_empty. Qed.

Lemma ServerGroups_maps_made (c : client) :
  maps_made c → maps_made (state_after (ServerGroups c)).
Proof.
  unfold ServerGroups. destruct (servergroups c); [done|].
  by destruct (cl_ServerGroups (cl c)) as [[g err] w].
Qed.

Lemma ServerResourcesForGroupVersion_maps_made gv (c : client) :
  maps_made c →
  maps_made (state_after (ServerResourcesForGroupVersion gv c)) ∧
  panics (ServerResourcesForGroupVersion gv c) = false.
Proof.
  intros [[m Hm] Hs]. unfold ServerResourcesForGroupVersion.
  destruct (map_index _ _); [by repeat split; eauto|].
  destruct (cl_ServerResourcesForGroupVersion gv (cl c)) as [[v err] w].
  rewrite Hm. split; [split|]; simpl; eauto.
Qed.

Lemma ServerVersion_maps_made (c : client) :
  maps_made c → maps_made (state_after (ServerVersion c)).
Proof.
  unfold ServerVersion. destruct (serverVersion c); [done|].
  destruct (cl_ServerVersion (cl c)) as [[v [e|]] w]; done.
Qed.

Lemma SwaggerSchema_maps_made v (c : client) :
  maps_made c →
  maps_made (state_after (SwaggerSchema v c)) ∧
  panics (SwaggerSchema v c) = false.
Proof.
  intros [Hr [m Hm]]. unfold SwaggerSchema.
  destruct (map_index _ _); [by repeat split; eauto|].
  destruct (cl_SwaggerSchema v (cl c)) as [[s [e|]] w].
  - split; [split|]; simpl; eauto.
  - rewrite Hm. split; [split|]; simpl; eauto.
Qed.

Lemma OpenAPISchema_maps_made (c : client) :
  maps_made c → maps_made (state_after (OpenAPISchema c)).
Proof.
  unfold OpenAPISchema. destruct (schema c); [done|].
  destruct (cl_OpenAPISchema (cl c)) as [[v [e|]] w]; done.
Qed.

Lemma state_after_answer {A} (inj : option A → Value)
    (o : outcome client (reply A)) :
  state_after (answer inj o) = state_after o.
Proof. by destruct o as [[? ?] ?|?]. Qed.

Lemma panics_answer {A} (inj : option A → Value)
    (o : outcome client (reply A)) :
  panics (answer inj o) = panics o.
Proof. by destruct o as [[? ?] ?|?]. Qed.

Lemma read_maps_made m (c : client) :
  maps_made c →
  maps_made (state_after (read m c)) ∧ panics (read m c) = false.
Proof.
  intros Hc. destruct m; simpl; rewrite state_after_answer, panics_answer.
  - split; [by apply ServerGroups_maps_made|].
    unfold ServerGroups. destruct (servergroups c); [done|].
    by destruct (cl_ServerGroups (cl c)) as [[g err] w].
  - by apply ServerResourcesForGroupVersion_maps_made.
  - split; [by apply ServerVersion_maps_made|].
    unfold ServerVersion. destruct (serverVersion c); [done|].
    by destruct (cl_ServerVersion (cl c)) as [[v [e|]] w].
  - by apply SwaggerSchema_maps_made.
  - split; [by apply OpenAPISchema_maps_made|].
    unfold OpenAPISchema. destruct (schema c); [done|].
    by destruct (cl_OpenAPISchema (cl c)) as [[v [e|]] w].
Qed.

(** A read leaves the slots of the other methods as they are. *)
Lemma read_other_slot m s (c : client) :
  slot_of m ≠ s → slot_empty s c → slot_empty s (state_after (read m c)).
Proof.
  intros Hne Hs. destruct m; simpl; rewrite state_after_answer.
  - unfold ServerGroups. destruct (servergroups c); [done|].
    destruct (cl_ServerGroups (cl c)) as [[g err] w].
    destruct s; simpl in *; congruence.
  - unfold ServerResourcesForGroupVersion.
    destruct (map_index _ _); [done|].
    destruct (cl_ServerResourcesForGroupVersion _ (cl c)) as [[v err] w].
    destruct (serverresources c) as [m|] eqn:Hm.
    + destruct s; simpl in *; try done.
      rewrite Hm in Hs. simpl in Hs.
      rewrite lookup_insert_ne; [done|congruence].
    + destruct s; simpl in *; done.
  - unfold ServerVersion. destruct (serverVersion c); [done|].
    destruct (cl_ServerVersion (cl c)) as [[v [e|]] w];
      destruct s; simpl in *; congruence.
  - unfold SwaggerSchema.
    destruct (map_index _ _); [done|].
    destruct (cl_SwaggerSchema _ (cl c)) as [[v [e|]] w].
    + destruct s; simpl in *; done.
    + destruct (schemas c) as [m|] eqn:Hm.
      * destruct s; simpl in *; try done.
        rewrite Hm in Hs. simpl in Hs.
        rewrite lookup_insert_ne; [done|congruence].
      * destruct s; simpl in *; done.
  - unfold OpenAPISchema. destruct (schema c); [done|].
    destruct (cl_OpenAPISchema (cl c)) as [[v [e|]] w];
      destruct s; simpl in *; congruence.
Qed.

Lemma run_reads_other_slots s (pre : list Method) (c : client) :
  Forall (λ m, slot_of m ≠ s) pre →
  maps_made c → slot_empty s c →
  maps_made (run_reads pre c) ∧ slot_empty s (run_reads pre c).
Proof.
  intros Hpre. revert c.
  induction Hpre as [|m pre Hm Hpre IH]; intros c Hc Hs; [done|].
  simpl. apply IH.
  - by apply read_maps_made.
  - by apply read_other_slot.
Qed.

End CacheFacts.

(** ** Counting the calls to the provider *)

Section CallCounts.
Context `{DiscoveryInterface W}.

Local Abbreviation client := (memcachedDiscoveryClient (Recorder W)).

(** A miss calls the provider, once. *)
Lemma read_miss_calls m (c : client) :
  slot_empty (slot_of m) c →
  calls (cl (state_after (read m c))) = calls (cl c) ++ [call_of m].
Proof.
  intros Hs. destruct m; simpl in *; rewrite state_after_answer.
  - unfold ServerGroups. rewrite Hs. simpl. unfold record.
    by destruct (cl_ServerGroups (inner (cl c))) as [[g err] w].
  - unfold ServerResourcesForGroupVersion. rewrite Hs. simpl. unfold record.
    destruct (cl_ServerResourcesForGroupVersion _ (inner (cl c))) as [[g err] w].
    by destruct (serverresources c).
  - unfold ServerVersion. rewrite Hs. simpl. unfold record.
    by destruct (cl_ServerVersion (inner (cl c))) as [[g [e|]] w].
  - unfold SwaggerSchema. rewrite Hs. simpl. unfold record.
    destruct (cl_SwaggerSchema _ (inner (cl c))) as [[g [e|]] w]; [done|].
    by destruct (schemas c).
  - unfold OpenAPISchema. rewrite Hs. simpl. unfold record.
    by destruct (cl_OpenAPISchema (inner (cl c))) as [[g [e|]] w].
Qed.

(** A fetch through the recorder adds its call to the list. *)
Lemma fetch_calls m (w w' : Recorder W) r :
  fetch m w = (r, w') → calls w' = calls w ++ [call_of m].
Proof.
  destruct m; simpl; unfold record.
  - destruct (cl_ServerGroups (inner w)) as [[g err] w0]. by intros [= <- <-].
  - destruct (cl_ServerResourcesForGroupVersion _ (inner w)) as [[g err] w0].
    by intros [= <- <-].
  - destruct (cl_ServerVersion (inner w)) as [[g err] w0]. by intros [= <- <-].
  - destruct (cl_SwaggerSchema _ (inner w)) as [[g err] w0]. by intros [= <- <-].
  - destruct (cl_OpenAPISchema (inner w)) as [[g err] w0]. by intros [= <- <-].
Qed.

End CallCounts.

Section CacheClaims.
Context `{DiscoveryInterface W}.

Local Abbreviation client := (memcachedDiscoveryClient (Recorder W)).

(** C3.  [Invalidate] is a total function of the state: it leaves the
    provider alone and sets the group list, the unified schema and the
    server version to nil and both maps to new empty maps.  After it, and
    after any reads [pre] of other slots, a read of a slot does not panic
    and makes one call to the provider. *)
Theorem Invalidate_then_fresh_call (c : client) (pre : list Method) (m : Method) :
  Forall (λ m', slot_of m' ≠ slot_of m) pre →
  let c0 := Invalidate c in
  let c1 := run_reads pre c0 in
  (cl c0 = cl c ∧ servergroups c0 = None ∧ serverresources c0 = Some ∅ ∧
   schemas c0 = Some ∅ ∧ schema c0 = None ∧ serverVersion c0 = None) ∧
  panics (read m c1) = false ∧
  calls (cl (state_after (read m c1))) = calls (cl c1) ++ [call_of m].
Proof.
  intros Hpre c0 c1. split; [done|].
  destruct (run_reads_other_slots (slot_of m) pre c0 Hpre) as [Hmade Hempty].
  - apply Invalidate_maps_made.
  - apply Invalidate_slot_empty.
  - split.
    + by apply read_maps_made.
    + by apply read_miss_calls.
Qed.

(** C4, amended.  A read of an empty slot that returns makes one call
    to the provider.  When the value it returns is not nil, the same read
    in the state it leaves returns the same value with no error and leaves
    the state, the list of calls included, as it is: two reads, one call.
    When the value is nil, the slot is empty as before and the second read
    calls the provider again: two reads, two calls. *)
Theorem read_twice_one_call (m : Method) (c c1 : client) v err :
  slot_empty (slot_of m) c →
  read m c = Returned (v, err) c1 →
  calls (cl c1) = calls (cl c) ++ [call_of m] ∧
  if is_nil v
  then calls (cl (state_after (read m c1))) =
       calls (cl c) ++ [call_of m; call_of m]
  else read m c1 = Returned (v, None) c1.
Proof.
  intros Hs Hr.
  assert (calls (cl c1) = calls (cl c) ++ [call_of m]) as Hcalls.
  { rewrite <- (read_miss_calls m c Hs). by rewrite Hr. }
  split; [done|].
  assert (slot_empty (slot_of m) c1 →
          calls (cl (state_after (read m c1))) =
          calls (cl c) ++ [call_of m; call_of m]) as Hagain.
  { intros Hs1. rewrite (read_miss_calls m c1 Hs1), Hcalls.
    by rewrite <- app_assoc. }
  destruct m; cbn [read slot_of slot_empty] in *.
  - unfold ServerGroups in Hr. rewrite Hs in Hr.
    destruct (cl_ServerGroups (cl c)) as [[g e] w].
    injection Hr as <- <- <-. destruct g; [done|]. by apply Hagain.
  - unfold ServerResourcesForGroupVersion in Hr. rewrite Hs in Hr.
    destruct (cl_ServerResourcesForGroupVersion _ (cl c)) as [[g e] w].
    destruct (serverresources c) as [rs|]; [|discriminate].
    injection Hr as <- <- <-. destruct g; simpl.
    + unfold ServerResourcesForGroupVersion. simpl.
      by rewrite lookup_insert_eq.
    + apply Hagain. simpl. by rewrite lookup_insert_eq.
  - unfold ServerVersion in Hr. rewrite Hs in Hr.
    destruct (cl_ServerVersion (cl c)) as [[g [e|]] w];
      injection Hr as <- <- <-; simpl.
    + by apply Hagain.
    + destruct g; [done|]. by apply Hagain.
  - unfold SwaggerSchema in Hr. rewrite Hs in Hr.
    destruct (cl_SwaggerSchema _ (cl c)) as [[g [e|]] w].
    { injection Hr as <- <- <-. by apply Hagain. }
    destruct (schemas c) as [ss|]; [|discriminate].
    injection Hr as <- <- <-. destruct g; simpl.
    + unfold SwaggerSchema. simpl. by rewrite lookup_insert_eq.
    + apply Hagain. simpl. by rewrite lookup_insert_eq.
  - unfold OpenAPISchema in Hr. rewrite Hs in Hr.
    destruct (cl_OpenAPISchema (cl c)) as [[g [e|]] w];
      injection Hr as <- <- <-; simpl.
    + by apply Hagain.
    + destruct g; [done|]. by apply Hagain.
Qed.

(** C2, amended.  When the provider fails under [ServerGroups] or
    [ServerResourcesForGroupVersion], read with its slot empty, the method
    returns what the provider returned, error included, and has assigned
    the value to the slot.  A value that is not nil is returned by the
    next call from the cache, with no error and no call to the provider;
    a nil is a miss again, and the next call goes to the provider. *)
Theorem failed_fetch_is_stored (m : Method) (gv : string) (c : client) v e w :
  m ∈ [MServerGroups; MServerResourcesForGroupVersion gv] →
  maps_made c →
  slot_empty (slot_of m) c →
  fetch m (cl c) = ((v, Some e), w) →
  ∃ c1, read m c = Returned (v, Some e) c1 ∧ cl c1 = w ∧
        slot_entry (slot_of m) c1 = Some v ∧
        if is_nil v
        then calls (cl (state_after (read m c1))) = calls w ++ [call_of m]
        else read m c1 = Returned (v, None) c1.
Proof.
  intros Hm [[rs Hrs] _] Hs Hf.
  apply elem_of_cons in Hm as [->|Hm];
    [|apply list_elem_of_singleton in Hm as ->];
    cbn [read slot_of slot_empty slot_entry fetch call_of] in *.
  - unfold ServerGroups at 1. rewrite Hs.
    destruct (cl_ServerGroups (cl c)) as [[g e'] w'].
    injection Hf as <- <- <-. eexists. split; [done|]. simpl.
    split; [done|]. split; [done|].
    destruct g as [g|]; simpl.
    + done.
    + rewrite state_after_answer.
      unfold ServerGroups. simpl. unfold record.
      by destruct (cl_ServerGroups (inner w')) as [[g' e''] w''].
  - unfold ServerResourcesForGroupVersion at 1. rewrite Hs.
    destruct (cl_ServerResourcesForGroupVersion gv (cl c)) as [[g e'] w'].
    injection Hf as <- <- <-. rewrite Hrs. eexists. split; [done|]. simpl.
    split; [done|]. rewrite lookup_insert_eq. split; [done|].
    destruct g as [g|]; simpl.
    + unfold ServerResourcesForGroupVersion. simpl.
      by rewrite lookup_insert_eq.
    + rewrite state_after_answer.
      unfold ServerResourcesForGroupVersion. simpl.
      rewrite lookup_insert_eq. simpl. unfold record.
      by destruct (cl_ServerResourcesForGroupVersion gv (inner w'))
        as [[g' e''] w''].
Qed.

(** C8.  [ServerVersion], [SwaggerSchema] and [OpenAPISchema], read with
    the slot empty: when the provider fails, the method returns nil and
    the error and leaves every slot as it was, so that the next call goes
    to the provider again; when the provider succeeds, the method returns
    the value and has assigned it to the slot. *)
Theorem error_is_not_stored (m : Method) (version : GroupVersion) (c : client)
    v err w :
  m ∈ [MServerVersion; MSwaggerSchema version; MOpenAPISchema] →
  maps_made c →
  slot_empty (slot_of m) c →
  fetch m (cl c) = ((v, err), w) →
  match err with
  | Some e =>
      read m c = Returned (nil_value m, Some e) (with_cl c w) ∧
      slot_empty (slot_of m) (with_cl c w) ∧
      calls (cl (state_after (read m (with_cl c w)))) = calls w ++ [call_of m]
  | None =>
      ∃ c1, read m c = Returned (v, None) c1 ∧ cl c1 = w ∧
            slot_entry (slot_of m) c1 = Some v
  end.
Proof.
  intros Hm [_ [ss Hss]] Hs Hf.
  assert (∀ e, err = Some e → slot_empty (slot_of m) (with_cl c w) →
               calls (cl (state_after (read m (with_cl c w)))) =
               calls w ++ [call_of m]) as Hnext.
  { intros e _ Hs'. by rewrite (read_miss_calls m _ Hs'). }
  apply elem_of_cons in Hm as [->|Hm];
    [|apply elem_of_cons in Hm as [->|Hm];
      [|apply list_elem_of_singleton in Hm as ->]];
    cbn [read slot_of slot_empty slot_entry fetch call_of nil_value] in *.
  - destruct err as [e|].
    + split; [|by eauto]. unfold ServerVersion. rewrite Hs.
      destruct (cl_ServerVersion (cl c)) as [[g e'] w'].
      injection Hf as <- -> <-. unfold with_cl. by rewrite Hs.
    + unfold ServerVersion. rewrite Hs.
      destruct (cl_ServerVersion (cl c)) as [[g e'] w'].
      injection Hf as <- -> <-. simpl. eauto.
  - destruct err as [e|].
    + split; [|by eauto]. unfold SwaggerSchema. rewrite Hs.
      destruct (cl_SwaggerSchema version (cl c)) as [[g e'] w'].
      by injection Hf as <- -> <-.
    + unfold SwaggerSchema. rewrite Hs.
      destruct (cl_SwaggerSchema version (cl c)) as [[g e'] w'].
      injection Hf as <- -> <-. rewrite Hss. eexists. split; [done|]. simpl.
      by rewrite lookup_insert_eq.
  - destruct err as [e|].
    + split; [|by eauto]. unfold OpenAPISchema. rewrite Hs.
      destruct (cl_OpenAPISchema (cl c)) as [[g e'] w'].
      injection Hf as <- -> <-. unfold with_cl. by rewrite Hs.
    + unfold OpenAPISchema. rewrite Hs.
      destruct (cl_OpenAPISchema (cl c)) as [[g e'] w'].
      injection Hf as <- -> <-. simpl. eauto.
Qed.

End CacheClaims.

(** * Properties of the aggregation *)

Section SelectionFacts.

Lemma selection_inv_empty : selection_inv [] empty_selection.
Proof.
  split; simpl; [done|..]; intros *; rewrite ?lookup_empty; naive_solver.
Qed.

Lemma select_resource_inv hs st g ver r :
  selection_inv hs st →
  is_Some (gvApiResourceLists st !!
             mkGroupVersion (grp_Name g) (gvd_Version ver)) →
  selection_inv hs (select_resource g ver st r) ∧
  gvApiResourceLists (select_resource g ver st r) = gvApiResourceLists st.
Proof.
  intros Hinv Hp. unfold select_resource.
  destruct (strings_Contains (res_Name r) "/") eqn:Hslash; [done|].
  case_decide as Hkeep; [done|]. split; [|done].
  destruct Hinv as [Hh Hptr Hkeys Hver Hnames].
  split; simpl; try done.
  - intros k.
    destruct (decide (k = mkGroupResource (grp_Name g) (res_Name r))) as [->|Hne].
    + rewrite !lookup_insert_eq. split; eauto.
    + rewrite !lookup_insert_ne by done. apply Hkeys.
  - intros k v.
    destruct (decide (k = mkGroupResource (grp_Name g) (res_Name r))) as [->|Hne].
    + rewrite lookup_insert_eq. by intros [= <-].
    + rewrite lookup_insert_ne by done. apply Hver.
  - intros k r'.
    destruct (decide (k = mkGroupResource (grp_Name g) (res_Name r))) as [->|Hne].
    + rewrite lookup_insert_eq. by intros [= <-].
    + rewrite lookup_insert_ne by done. apply Hnames.
Qed.

Lemma select_resources_inv hs g ver rs st :
  selection_inv hs st →
  is_Some (gvApiResourceLists st !!
             mkGroupVersion (grp_Name g) (gvd_Version ver)) →
  selection_inv hs (foldl (select_resource g ver) st rs).
Proof.
  revert st. induction rs as [|r rs IH]; intros st Hinv Hp; [done|].
  simpl. destruct (select_resource_inv hs st g ver r Hinv Hp) as [Hinv' Heq].
  apply IH; [done|]. by rewrite Heq.
Qed.

Lemma select_version_inv hs st g ver rl :
  selection_inv hs st →
  selection_inv (hs ++ [(g, ver)]) (select_version g ver rl st).
Proof.
  intros [Hh Hptr Hkeys Hver Hnames]. unfold select_version.
  apply select_resources_inv; [|simpl; by rewrite lookup_insert_eq].
  split; simpl; try done.
  - by rewrite Hh, fmap_app.
  - intros gv p.
    destruct (decide (gv = mkGroupVersion (grp_Name g) (gvd_Version ver)))
      as [->|Hne].
    + rewrite lookup_insert_eq. intros [= <-]. exists g, ver. split; [|done].
      rewrite Hh, length_fmap. by rewrite list_lookup_middle.
    + rewrite lookup_insert_ne by done. intros Hp.
      destruct (Hptr gv p Hp) as (g' & ver' & Hl & ->).
      exists g', ver'. split; [|done]. by apply lookup_app_l_Some.
  - intros k v Hv.
    destruct (decide (mkGroupVersion (gr_Group k) v =
                      mkGroupVersion (grp_Name g) (gvd_Version ver)))
      as [->|Hne].
    + by rewrite lookup_insert_eq.
    + rewrite lookup_insert_ne by done. by apply Hver.
Qed.

Lemma select_visits_inv vs hs st :
  selection_inv hs st →
  selection_inv (hs ++ vs.*1) (select_visits vs st).
Proof.
  revert hs st. induction vs as [|[[g ver] rl] vs IH]; intros hs st Hinv.
  - by rewrite app_nil_r.
  - simpl. rewrite (cons_middle (g, ver)), app_assoc.
    apply IH. by apply select_version_inv.
Qed.

End SelectionFacts.

Section GroupingFacts.

(** The last loop, when every entry has a list header to go to: it does
    not dereference nil, keeps the headers in place and appends to each
    the resources that point to it, in the order of the entries. *)
Lemma group_loop_spec st kvs res :
  (∀ kv, kv ∈ kvs → ∃ p, pointer st kv.1 = Some p ∧ p < length res) →
  ∃ out, group_loop st res kvs = Some out ∧ length out = length res ∧
         ∀ p rl, res !! p = Some rl →
                 out !! p = Some (mkAPIResourceList (rl_GroupVersion rl)
                   (rl_APIResources rl ++
                    (filter (λ kv, pointer st kv.1 = Some p) kvs).*2)).
Proof.
  revert res. induction kvs as [|[k r] kvs IH]; intros res Hkvs.
  - exists res. split; [done|]. split; [done|].
    intros p [gv rs] Hp. simpl. by rewrite app_nil_r.
  - destruct (Hkvs (k, r)) as (p0 & Hp0 & Hlt); [by left|].
    destruct (lookup_lt_is_Some_2 res p0 Hlt) as [rl0 Hrl0].
    simpl. unfold pointer in Hp0. simpl in Hp0. rewrite Hp0. simpl.
    rewrite Hrl0. simpl.
    destruct (IH (<[p0 := mkAPIResourceList (rl_GroupVersion rl0)
                            (rl_APIResources rl0 ++ [r])]> res))
      as (out & Hout & Hlen & Hspec).
    { intros kv Hkv. rewrite length_insert. apply Hkvs. by right. }
    exists out. split; [done|]. rewrite length_insert in Hlen.
    split; [done|]. intros p rl Hp.
    destruct (decide (p = p0)) as [->|Hne].
    + rewrite filter_cons_True by done.
      rewrite (Hspec p0 (mkAPIResourceList (rl_GroupVersion rl0)
                           (rl_APIResources rl0 ++ [r])))
        by (by apply list_lookup_insert_eq).
      simpl. replace rl with rl0 by congruence.
      by rewrite <- app_assoc.
    + rewrite filter_cons_False by (simpl; unfold pointer; congruence).
      apply Hspec. by rewrite list_lookup_insert_ne.
Qed.

(** After the selection loops, every selected resource has a list header
    to go to. *)
Lemma selection_inv_pointer hs st k :
  selection_inv hs st →
  is_Some (grApiResources st !! k) →
  ∃ v p g ver, grVersions st !! k = Some v ∧ pointer st k = Some p ∧
               p < length (result st) ∧ hs !! p = Some (g, ver) ∧
               grp_Name g = gr_Group k ∧ gvd_Version ver = v.
Proof.
  intros [Hh Hptr Hkeys Hver Hnames] Hk.
  apply Hkeys in Hk as [v Hv].
  destruct (Hver k v Hv) as [p Hp].
  destruct (Hptr _ p Hp) as (g & ver & Hl & [= Hg Hv']).
  exists v, p, g, ver. unfold pointer. rewrite Hv. simpl.
  repeat split; try done.
  rewrite Hh, length_fmap. by eapply lookup_lt_Some.
Qed.

Lemma group_loop_grouped hs st (range : MapRange) :
  selection_inv hs st →
  ∃ out, group_loop st (result st) (range (map_to_list (grApiResources st)))
           = Some out ∧ grouped hs st out.
Proof.
  intros Hinv.
  destruct (group_loop_spec st (range (map_to_list (grApiResources st)))
              (result st)) as (out & Hout & Hlen & Hspec).
  { intros [k r] Hkv. rewrite (range_order_perm range) in Hkv.
    apply elem_of_map_to_list in Hkv.
    destruct (selection_inv_pointer hs st k Hinv) as (v & p & _ & _ & _ & Hp & Hlt & _);
      eauto. }
  exists out. split; [done|].
  pose proof (inv_headers _ _ Hinv) as Hh.
  assert (∀ p rl, out !! p = Some rl →
            ∃ h, hs !! p = Some h ∧
                 rl = mkAPIResourceList (gvd_GroupVersion h.2)
                        (filter (λ kv, pointer st kv.1 = Some p)
                           (range (map_to_list (grApiResources st)))).*2)
    as Hout'.
  { intros p rl Hp.
    assert (p < length (result st)) as Hlt
      by (rewrite <- Hlen; by eapply lookup_lt_Some).
    destruct (lookup_lt_is_Some_2 _ _ Hlt) as [rl0 Hrl0].
    rewrite (Hspec p rl0 Hrl0) in Hp. injection Hp as <-.
    rewrite Hh, list_lookup_fmap in Hrl0.
    destruct (hs !! p) as [h|]; [|done]. injection Hrl0 as <-.
    by exists h. }
  split.
  - apply Forall2_same_length_lookup. split.
    + by rewrite Hlen, Hh, length_fmap.
    + intros p h rl Hh' Hp. destruct (Hout' p rl Hp) as (h' & Hh'' & ->).
      simpl. congruence.
  - intros p rl Hp. destruct (Hout' p rl Hp) as (h' & _ & ->). simpl.
    unfold winners_at. by rewrite (range_order_perm range).
Qed.

End GroupingFacts.

Section TieBreakFacts.

Lemma recorded_select_resource hs st g ver r k :
  selection_inv hs st →
  recorded (select_resource g ver st r) k =
  foldl tie_break (recorded st k) (sightings_in k g ver [r]).
Proof.
  intros Hinv. pose proof (inv_same_keys _ _ Hinv) as Hkeys.
  unfold select_resource, sightings_in. simpl.
  destruct (strings_Contains (res_Name r) "/"); [done|].
  destruct (decide (mkGroupResource (grp_Name g) (res_Name r) = k)) as [<-|Hne].
  - simpl. unfold recorded at 2.
    destruct (grVersions st !! _) as [v|] eqn:Hv.
    + destruct (proj1 (Hkeys _) (mk_is_Some _ _ Hv)) as [r' Hr'].
      rewrite Hr'. simpl.
      destruct (decide (gvd_Version ver = gvd_Version (grp_PreferredVersion g)))
        as [Heq|Hneq].
      * rewrite decide_False by (by intros [_ ?]).
        unfold recorded. simpl. by rewrite !lookup_insert_eq.
      * rewrite decide_True by (split; [by eexists|done]).
        unfold recorded. by rewrite Hv, Hr'.
    + simpl.
      assert (grApiResources st !! mkGroupResource (grp_Name g) (res_Name r) = None)
        as Hr'.
      { apply eq_None_not_Some. intros Hs. apply Hkeys in Hs as [? ?]. congruence. }
      rewrite decide_False by (rewrite Hr'; intros [[? ?] _]; done).
      unfold recorded. simpl. by rewrite !lookup_insert_eq.
  - simpl. case_decide; [done|].
    unfold recorded. simpl. by rewrite !lookup_insert_ne.
Qed.

Lemma sightings_in_cons k g ver r rs :
  sightings_in k g ver (r :: rs) =
  sightings_in k g ver [r] ++ sightings_in k g ver rs.
Proof. unfold sightings_in. simpl. by rewrite app_nil_r. Qed.

Lemma recorded_select_resources hs g ver k rs st :
  selection_inv hs st →
  is_Some (gvApiResourceLists st !!
             mkGroupVersion (grp_Name g) (gvd_Version ver)) →
  recorded (foldl (select_resource g ver) st rs) k =
  foldl tie_break (recorded st k) (sightings_in k g ver rs).
Proof.
  revert st. induction rs as [|r rs IH]; intros st Hinv Hp; [done|].
  rewrite sightings_in_cons, foldl_app. simpl foldl at 1.
  destruct (select_resource_inv hs st g ver r Hinv Hp) as [Hinv' Heq].
  rewrite IH by (by rewrite ?Heq).
  by rewrite (recorded_select_resource hs).
Qed.

Lemma recorded_select_version hs st g ver rl k :
  selection_inv hs st →
  recorded (select_version g ver rl st) k =
  foldl tie_break (recorded st k) (sightings_in k g ver (rl_APIResources rl)).
Proof.
  intros Hinv. unfold select_version.
  set (st1 := mkSelection _ _ _ _).
  assert (selection_inv (hs ++ [(g, ver)]) st1) as Hinv1.
  { pose proof (select_version_inv hs st g ver (mkAPIResourceList "" []) Hinv)
      as Hv. by unfold select_version in Hv. }
  rewrite (recorded_select_resources (hs ++ [(g, ver)])); [done|done|].
  subst st1. simpl. by rewrite lookup_insert_eq.
Qed.

Lemma recorded_select_visits k vs hs st :
  selection_inv hs st →
  recorded (select_visits vs st) k =
  foldl tie_break (recorded st k) (sightings k vs).
Proof.
  revert hs st. induction vs as [|[[g ver] rl] vs IH]; intros hs st Hinv; [done|].
  unfold sightings. simpl. rewrite foldl_app.
  rewrite (IH (hs ++ [(g, ver)])) by (by apply select_version_inv).
  by rewrite (recorded_select_version hs).
Qed.

Lemma selection_inv_recorded hs st k :
  selection_inv hs st →
  grVersions st !! k = fst <$> recorded st k ∧
  grApiResources st !! k = snd <$> recorded st k.
Proof.
  intros Hinv. pose proof (inv_same_keys _ _ Hinv k) as Hkeys.
  unfold recorded.
  destruct (grVersions st !! k) as [v|] eqn:Hv; simpl.
  - destruct (proj1 Hkeys (mk_is_Some _ _ eq_refl)) as [r ->]. done.
  - split; [done|]. apply eq_None_not_Some. intros Hs.
    apply Hkeys in Hs as [? ?]. congruence.
Qed.

End TieBreakFacts.

Section FetchedFacts.
Context `{DiscoveryInterface W}.

Local Abbreviation client := (memcachedDiscoveryClient W).

Lemma fetched_app (c c1 c2 : client) vs1 vs2 :
  fetched c vs1 c1 → fetched c1 vs2 c2 → fetched c (vs1 ++ vs2) c2.
Proof.
  induction 1 as [|c c' c1 g ver rl vs Hf Hvs IH]; intros H2; [done|].
  simpl. econstructor; eauto.
Qed.

Lemma fetched_app_inv (c c2 : client) vs1 vs2 :
  fetched c (vs1 ++ vs2) c2 → ∃ c1, fetched c vs1 c1 ∧ fetched c1 vs2 c2.
Proof.
  revert c. induction vs1 as [|v vs1 IH]; intros c Hf; simpl in *.
  - exists c. split; [constructor|done].
  - inversion Hf as [|? c' ? g ver rl vs Hc Hvs]; subst.
    destruct (IH _ Hvs) as (c1 & H1 & H2).
    exists c1. split; [by econstructor|done].
Qed.

(** The loop over the versions of a group runs to its end exactly when
    every fetch gives a list and no error, and then it is the fold over
    what was fetched. *)
Lemma select_versions_fetched g versions st (c : client) st' c' :
  select_versions g versions st c = Returned (inl st') c' ↔
  ∃ vs, vs.*1 = (λ ver, (g, ver)) <$> versions ∧ fetched c vs c' ∧
        st' = select_visits vs st.
Proof.
  revert st c. induction versions as [|ver versions IH]; intros st c; simpl.
  - split.
    + intros [= <- <-]. exists []. repeat split. constructor.
    + intros (vs & Hvs & Hf & ->). apply fmap_nil_inv in Hvs as ->.
      by inversion Hf.
  - split.
    + destruct (ServerResourcesForGroupVersion (gvd_GroupVersion ver) c)
        as [[[rl|] [e|]] c1|c1] eqn:Hc; try done.
      intros (vs & Hvs & Hf & ->)%IH.
      exists ((g, ver, rl) :: vs). split; [by rewrite fmap_cons, Hvs|].
      split; [by econstructor|done].
    + intros (vs & Hvs & Hf & ->).
      destruct vs as [|[[g' ver'] rl] vs]; [done|].
      injection Hvs as -> -> Hvs.
      inversion Hf as [|? c1 ? ? ? ? ? Hc Hf']; subst.
      rewrite Hc. apply IH. by exists vs.
Qed.

Lemma select_groups_fetched groups st (c : client) st' c' :
  select_groups groups st c = Returned (inl st') c' ↔
  ∃ vs, vs.*1 = visitation groups ∧ fetched c vs c' ∧
        st' = select_visits vs st.
Proof.
  revert st c. induction groups as [|g groups IH]; intros st c; simpl.
  - split.
    + intros [= <- <-]. exists []. repeat split. constructor.
    + intros (vs & Hvs & Hf & ->). apply fmap_nil_inv in Hvs as ->.
      by inversion Hf.
  - split.
    + destruct (select_versions g (grp_Versions g) st c)
        as [[st1|e] c1|c1] eqn:Hc; try done.
      apply select_versions_fetched in Hc as (vs1 & Hvs1 & Hf1 & ->).
      intros (vs2 & Hvs2 & Hf2 & ->)%IH.
      exists (vs1 ++ vs2). split; [by rewrite fmap_app, Hvs1, Hvs2|].
      split; [by eapply fetched_app|].
      unfold select_visits. by rewrite foldl_app.
    + intros (vs & Hvs & Hf & ->).
      apply fmap_app_inv in Hvs as (vs1 & vs2 & Hvs1 & Hvs2 & ->).
      apply fetched_app_inv in Hf as (c1 & Hf1 & Hf2).
      rewrite (proj2 (select_versions_fetched g (grp_Versions g) st c
                        (select_visits vs1 st) c1)) by eauto.
      apply IH. exists vs2. split; [done|]. split; [done|].
      unfold select_visits. by rewrite foldl_app.
Qed.

Lemma select_groups_inv groups (c : client) st c' :
  select_groups groups empty_selection c = Returned (inl st) c' →
  selection_inv (visitation groups) st.
Proof.
  intros (vs & Hvs & _ & ->)%select_groups_fetched.
  rewrite <- Hvs. apply (select_visits_inv vs []), selection_inv_empty.
Qed.

End FetchedFacts.

Section AggregatorFacts.
Context `{DiscoveryInterface W}.

Local Abbreviation client := (memcachedDiscoveryClient W).

(** The three ways [ServerPreferredResources] can end; which one it is
    does not depend on the order of the last loop. *)
Lemma ServerPreferredResources_cases (c : client) :
  (∃ c', ∀ range, ServerPreferredResources range c = Panicked c') ∨
  (∃ e c', ∀ range, ServerPreferredResources range c = Returned ([], Some e) c') ∨
  (∃ gl c1 st c2,
      ServerGroups c = Returned (Some gl, None) c1 ∧
      select_groups (Groups gl) empty_selection c1 = Returned (inl st) c2 ∧
      ∀ range, ∃ out,
        ServerPreferredResources range c = Returned (out, None) c2 ∧
        grouped (visitation (Groups gl)) st out).
Proof.
  unfold ServerPreferredResources.
  destruct (ServerGroups c) as [[[gl|] [e|]] c1|c1] eqn:Hg;
    [by right; left; eauto| |by right; left; eauto|by left; eauto|by left; eauto].
  destruct (select_groups (Groups gl) empty_selection c1)
    as [[st|e] c2|c2] eqn:Hs;
    [|by right; left; eauto|by left; eauto].
  right; right. exists gl, c1, st, c2. split; [done|]. split; [done|].
  intros range.
  destruct (group_loop_grouped (visitation (Groups gl)) st range)
    as (out & -> & Hout); [by eapply select_groups_inv|].
  by exists out.
Qed.

Lemma ServerPreferredResources_returns range (c : client) gl c1 st c2 :
  ServerGroups c = Returned (Some gl, None) c1 →
  select_groups (Groups gl) empty_selection c1 = Returned (inl st) c2 →
  ∃ out, ServerPreferredResources range c = Returned (out, None) c2 ∧
         grouped (visitation (Groups gl)) st out.
Proof.
  intros Hg Hs. unfold ServerPreferredResources. rewrite Hg, Hs.
  destruct (group_loop_grouped (visitation (Groups gl)) st range)
    as (out & -> & Hout); [by eapply select_groups_inv|].
  by exists out.
Qed.

Lemma winners_at_elem st p r :
  r ∈ winners_at st p ↔
  ∃ k, grApiResources st !! k = Some r ∧ pointer st k = Some p.
Proof.
  unfold winners_at. rewrite list_elem_of_fmap. split.
  - intros ([k r'] & -> & [Hp Hk%elem_of_map_to_list]%list_elem_of_filter).
    by exists k.
  - intros (k & Hk & Hp). exists (k, r). split; [done|].
    apply list_elem_of_filter. split; [done|]. by apply elem_of_map_to_list.
Qed.

(** The lists of two runs from the same state agree up to the order of
    the resources within each list. *)
Lemma ServerPreferredResources_any_order range range' (c : client) :
  Forall2 (λ a b, rl_GroupVersion a = rl_GroupVersion b ∧
                  rl_APIResources a ≡ₚ rl_APIResources b)
          (returned_lists (ServerPreferredResources range c))
          (returned_lists (ServerPreferredResources range' c)).
Proof.
  destruct (ServerPreferredResources_cases c)
    as [(c' & Hp)|[(e & c' & He)|(gl & c1 & st & c2 & _ & _ & Hr)]].
  - rewrite !Hp. constructor.
  - rewrite !He. constructor.
  - destruct (Hr range) as (out & -> & Hh & Hw).
    destruct (Hr range') as (out' & -> & Hh' & Hw'). simpl.
    apply Forall2_same_length_lookup. split.
    + apply Forall2_length in Hh, Hh'. congruence.
    + intros p a b Ha Hb. split.
      * destruct (Forall2_lookup_r _ _ _ _ _ Hh Ha) as (h & Hp & ->).
        destruct (Forall2_lookup_r _ _ _ _ _ Hh' Hb) as (h' & Hp' & ->).
        congruence.
      * by rewrite (Hw p a Ha), (Hw' p b Hb).
Qed.

Lemma resource_count_any_order gv (l l' : list APIResourceList) :
  Forall2 (λ a b, rl_GroupVersion a = rl_GroupVersion b ∧
                  rl_APIResources a ≡ₚ rl_APIResources b) l l' →
  resource_count gv l = resource_count gv l'.
Proof.
  unfold resource_count.
  induction 1 as [|a b l l' [Hgv Hrs] Hl IH]; [done|].
  destruct (decide (rl_GroupVersion a = gv)) as [Ha|Ha].
  - rewrite !filter_cons_True by congruence. simpl.
    f_equal; [by apply Permutation_length|exact IH].
  - rewrite !filter_cons_False by congruence. done.
Qed.

Lemma resource_count_cons gv rl (l : list APIResourceList) :
  resource_count gv (rl :: l) =
  (if decide (rl_GroupVersion rl = gv) then length (rl_APIResources rl) else 0)
  + resource_count gv l.
Proof.
  unfold resource_count. case_decide.
  - by rewrite filter_cons_True by done.
  - by rewrite filter_cons_False by done.
Qed.

Lemma FilteredBy_cons dropEmpty pred rl (l : list APIResourceList) :
  FilteredBy dropEmpty pred (rl :: l) =
  (let rs := filter (λ r, pred (rl_GroupVersion rl) r = true) (rl_APIResources rl) in
   if dropEmpty && bool_decide (rs = []) then []
   else [mkAPIResourceList (rl_GroupVersion rl) rs])
  ++ FilteredBy dropEmpty pred l.
Proof. unfold FilteredBy. simpl. by destruct (dropEmpty && _). Qed.

Lemma FilteredBy_resource_count dropEmpty pred gv (l : list APIResourceList) :
  (resource_count gv (FilteredBy dropEmpty pred l) ≤ resource_count gv l)%nat.
Proof.
  induction l as [|rl l IH]; [done|].
  rewrite FilteredBy_cons, resource_count_cons. simpl.
  pose proof (length_filter (λ r, pred (rl_GroupVersion rl) r = true)
                (rl_APIResources rl)) as Hlen.
  destruct (dropEmpty && _); simpl.
  - lia.
  - rewrite resource_count_cons. simpl. case_decide; lia.
Qed.

Lemma FilteredBy_pred dropEmpty pred (l : list APIResourceList) :
  Forall (λ rl, Forall (λ r, pred (rl_GroupVersion rl) r = true)
                       (rl_APIResources rl))
         (FilteredBy dropEmpty pred l).
Proof.
  unfold FilteredBy. apply Forall_forall. intros rl.
  rewrite list_elem_of_omap. intros ([gv rs] & _ & Hrl). simpl in Hrl.
  destruct (dropEmpty && _); [done|]. injection Hrl as <-. simpl.
  apply Forall_forall. by intros r [? _]%list_elem_of_filter.
Qed.

End AggregatorFacts.

Section AggregatorClaims.
Context `{DiscoveryInterface W}.

Local Abbreviation client := (memcachedDiscoveryClient W).

(** C5.  In a run of [ServerPreferredResources] whose selection loops
    come to their end, no key of [grVersions] or of [grApiResources] has a
    resource name that contains a slash; and whatever way the run ends, no
    list it returns holds a resource whose name contains a slash. *)
Theorem subresources_never_selected range (c : client) gl c1 st c2 :
  ServerGroups c = Returned (Some gl, None) c1 →
  select_groups (Groups gl) empty_selection c1 = Returned (inl st) c2 →
  (∀ k, is_Some (grVersions st !! k) ∨ is_Some (grApiResources st !! k) →
        strings_Contains (gr_Resource k) "/" = false) ∧
  Forall (λ rl, Forall (λ r, strings_Contains (res_Name r) "/" = false)
                       (rl_APIResources rl))
         (returned_lists (ServerPreferredResources range c)).
Proof.
  intros Hg Hs. pose proof (select_groups_inv _ _ _ _ Hs) as Hinv. split.
  - intros k Hk.
    assert (is_Some (grApiResources st !! k)) as [r Hr].
    { destruct Hk as [Hk|Hk]; [|done]. by apply (inv_same_keys _ _ Hinv). }
    destruct (inv_names _ _ Hinv k r Hr) as [-> Hslash]. done.
  - destruct (ServerPreferredResources_returns range c gl c1 st c2 Hg Hs)
      as (out & -> & _ & Hw). simpl.
    apply Forall_forall. intros rl [p Hp]%list_elem_of_lookup.
    apply Forall_forall. intros r Hr. rewrite (Hw p rl Hp) in Hr.
    apply winners_at_elem in Hr as (k & Hk & _).
    by destruct (inv_names _ _ Hinv k r Hk).
Qed.

(** C6.  When the selection loops of [ServerPreferredResources] come to
    their end, the method returns, with no error, one list for every turn
    of the loop over the versions, in the order of the turns and under the
    [GroupVersion] string of its version, whether or not a resource was
    selected for it.  Every selected resource is in the list of a turn
    whose group has the group name of the key and whose version is the
    version selected for the key; a list holds the resources selected for
    it and nothing else. *)
Theorem preferred_lists_follow_visits range (c : client) gl c1 st c2 :
  ServerGroups c = Returned (Some gl, None) c1 →
  select_groups (Groups gl) empty_selection c1 = Returned (inl st) c2 →
  ∃ out,
    ServerPreferredResources range c = Returned (out, None) c2 ∧
    rl_GroupVersion <$> out =
      (λ h, gvd_GroupVersion h.2) <$> visitation (Groups gl) ∧
    (∀ k r, grApiResources st !! k = Some r →
       ∃ v p g ver rl,
         grVersions st !! k = Some v ∧
         visitation (Groups gl) !! p = Some (g, ver) ∧
         grp_Name g = gr_Group k ∧ gvd_Version ver = v ∧
         out !! p = Some rl ∧ r ∈ rl_APIResources rl) ∧
    (∀ p rl, out !! p = Some rl → rl_APIResources rl ≡ₚ winners_at st p).
Proof.
  intros Hg Hs. pose proof (select_groups_inv _ _ _ _ Hs) as Hinv.
  destruct (ServerPreferredResources_returns range c gl c1 st c2 Hg Hs)
    as (out & Hout & Hh & Hw).
  exists out. split; [done|]. split; [|split; [|done]].
  - clear Hw Hout Hinv. induction Hh as [|h rl hs out' Heq _ IH]; [done|].
    rewrite !fmap_cons. by f_equal.
  - intros k r Hk.
    destruct (selection_inv_pointer _ st k Hinv)
      as (v & p & g & ver & Hv & Hp & _ & Hvis & Hgn & Hvn); [by eauto|].
    destruct (Forall2_lookup_l _ _ _ _ _ Hh Hvis) as (rl & Hrl & _).
    exists v, p, g, ver, rl. repeat split; try done.
    rewrite (Hw p rl Hrl). apply winners_at_elem. by exists k.
Qed.

(** C7.  From one state, and whatever the orders of the last loop in the
    two runs: under every group-version string,
    [ServerPreferredNamespacedResources] returns at most as many resources
    as [ServerPreferredResources], and all it returns are namespaced. *)
Theorem namespaced_is_filtered dropEmpty range range' (c : client) gv :
  let namespaced := returned_lists
                      (ServerPreferredNamespacedResources dropEmpty range c) in
  let all := returned_lists (ServerPreferredResources range' c) in
  (resource_count gv namespaced ≤ resource_count gv all)%nat ∧
  Forall (λ rl, Forall (λ r, res_Namespaced r = true) (rl_APIResources rl))
         namespaced.
Proof.
  intros namespaced all.
  assert (namespaced =
          FilteredBy dropEmpty (λ _ r, res_Namespaced r)
            (returned_lists (ServerPreferredResources range c))) as ->.
  { subst namespaced. unfold ServerPreferredNamespacedResources.
    by destruct (ServerPreferredResources range c) as [[? ?] ?|?]. }
  split.
  - etrans; [apply FilteredBy_resource_count|].
    subst all. apply Nat.eq_le_incl, resource_count_any_order.
    apply ServerPreferredResources_any_order.
  - apply (FilteredBy_pred dropEmpty (λ _ r, res_Namespaced r)).
Qed.

(** The tie-break, loop by loop.  When the selection loops come to their
    end, they have made a chain of fetches, one for every version in the order of the
    groups and of their versions, and for every key the version and the
    resource selected are those the tie-break of the specification
    gives, run from nothing over the occurrences of the key in the order
    of the loops. *)
Lemma selection_is_tie_break (c : client) gl c1 st c2 :
  ServerGroups c = Returned (Some gl, None) c1 →
  select_groups (Groups gl) empty_selection c1 = Returned (inl st) c2 →
  ∃ vs, vs.*1 = visitation (Groups gl) ∧ fetched c1 vs c2 ∧
        ∀ k, grVersions st !! k = fst <$> foldl tie_break None (sightings k vs) ∧
             grApiResources st !! k = snd <$> foldl tie_break None (sightings k vs).
Proof.
  intros Hg Hs. pose proof (select_groups_inv _ _ _ _ Hs) as Hinv.
  apply select_groups_fetched in Hs as (vs & Hvs & Hf & ->).
  exists vs. split; [done|]. split; [done|]. intros k.
  pose proof (recorded_select_visits k vs [] empty_selection selection_inv_empty)
    as Hrec.
  replace (recorded empty_selection k) with (@None (string * APIResource))
    in Hrec by (unfold recorded; simpl; by rewrite lookup_empty).
  rewrite <- Hrec.
  by apply (selection_inv_recorded (visitation (Groups gl))).
Qed.

End AggregatorClaims.

Section MapsFacts.
Context `{DiscoveryInterface W}.

Local Abbreviation client := (memcachedDiscoveryClient W).

Lemma maps_made_after_fetch gv (c : client) :
  maps_made c →
  maps_made (state_after (ServerResourcesForGroupVersion gv c)).
Proof. intros Hc. by apply ServerResourcesForGroupVersion_maps_made. Qed.

Lemma select_versions_maps_made g versions st (c : client) :
  maps_made c → maps_made (state_after (select_versions g versions st c)).
Proof.
  revert st c. induction versions as [|ver versions IH]; intros st c Hc; [done|].
  simpl. pose proof (maps_made_after_fetch (gvd_GroupVersion ver) c Hc) as Hc'.
  destruct (ServerResourcesForGroupVersion _ c) as [[[rl|] [e|]] c1|c1];
    simpl in *; try done.
  by apply IH.
Qed.

Lemma select_groups_maps_made groups st (c : client) :
  maps_made c → maps_made (state_after (select_groups groups st c)).
Proof.
  revert st c. induction groups as [|g groups IH]; intros st c Hc; [done|].
  simpl. pose proof (select_versions_maps_made g (grp_Versions g) st c Hc) as Hc'.
  destruct (select_versions g _ st c) as [[st1|e] c1|c1]; simpl in *; try done.
  by apply IH.
Qed.

Lemma ServerResources_versions_maps_made versions res (c : client) :
  maps_made c →
  maps_made (state_after (ServerResources_versions versions res c)).
Proof.
  revert res c. induction versions as [|ver versions IH]; intros res c Hc; [done|].
  simpl. pose proof (maps_made_after_fetch (gvd_GroupVersion ver) c Hc) as Hc'.
  destruct (ServerResourcesForGroupVersion _ c) as [[rl [e|]] c1|c1];
    simpl in *; try done.
  by apply IH.
Qed.

Lemma ServerResources_groups_maps_made groups res (c : client) :
  maps_made c →
  maps_made (state_after (ServerResources_groups groups res c)).
Proof.
  revert res c. induction groups as [|g groups IH]; intros res c Hc; [done|].
  simpl.
  pose proof (ServerResources_versions_maps_made (grp_Versions g) res c Hc) as Hc'.
  destruct (ServerResources_versions _ res c) as [[res1|e] c1|c1];
    simpl in *; try done.
  by apply IH.
Qed.

Lemma ServerResources_maps_made (c : client) :
  maps_made c → maps_made (state_after (ServerResources c)).
Proof.
  intros Hc. unfold ServerResources.
  pose proof (ServerGroups_maps_made c Hc) as Hc1.
  destruct (ServerGroups c) as [[[gl|] [e|]] c1|c1]; simpl in *; try done.
  pose proof (ServerResources_groups_maps_made (Groups gl) [] c1 Hc1) as Hc2.
  by destruct (ServerResources_groups _ _ c1) as [[res|e] c2|c2].
Qed.

Lemma ServerPreferredResources_maps_made range (c : client) :
  maps_made c → maps_made (state_after (ServerPreferredResources range c)).
Proof.
  intros Hc. unfold ServerPreferredResources.
  pose proof (ServerGroups_maps_made c Hc) as Hc1.
  destruct (ServerGroups c) as [[[gl|] [e|]] c1|c1]; simpl in *; try done.
  pose proof (select_groups_maps_made (Groups gl) empty_selection c1 Hc1) as Hc2.
  destruct (select_groups _ _ c1) as [[st|e] c2|c2]; simpl in *; try done.
  by destruct (group_loop _ _ _).
Qed.

Lemma run_op_maps_made op (c : client) : maps_made c → maps_made (run_op op c).
Proof.
  intros Hc. destruct op as [| |m| |range|dropEmpty range]; simpl.
  - apply Invalidate_maps_made.
  - done.
  - by apply read_maps_made.
  - by apply ServerResources_maps_made.
  - by apply ServerPreferredResources_maps_made.
  - pose proof (ServerPreferredResources_maps_made range c Hc) as Hc'.
    unfold ServerPreferredNamespacedResources.
    by destruct (ServerPreferredResources range c) as [[? ?] ?|?].
Qed.

Lemma run_ops_maps_made ops (c : client) :
  maps_made c → maps_made (run_ops ops c).
Proof.
  revert c. induction ops as [|op ops IH]; intros c Hc; [done|].
  simpl. apply IH. by apply run_op_maps_made.
Qed.

(** C10.  In every state the cache can be in after
    [NewMemcachedDiscoveryClient], whatever operations have been run on it
    and however they ended, both maps are not nil, and neither
    [ServerResourcesForGroupVersion] nor [SwaggerSchema] panics. *)
Theorem maps_never_nil (w : W) (ops : list Op) gv version :
  let c := run_ops ops (NewMemcachedDiscoveryClient w) in
  is_Some (serverresources c) ∧ is_Some (schemas c) ∧
  panics (ServerResourcesForGroupVersion gv c) = false ∧
  panics (SwaggerSchema version c) = false.
Proof.
  intros c.
  assert (maps_made c) as Hc.
  { apply run_ops_maps_made, Invalidate_maps_made. }
  destruct Hc as [Hr Hs]. repeat split; try done.
  - by apply ServerResourcesForGroupVersion_maps_made.
  - by apply SwaggerSchema_maps_made.
Qed.

End MapsFacts.

(** * Properties of the lookup of a resource *)

Section Strings.

Lemma strings_HasPrefix_app (p s : string) : strings_HasPrefix (p +:+ s) p = true.
Proof. induction p as [|a p IH]; [done|]. simpl. by rewrite Ascii.eqb_refl. Qed.

Lemma strings_Contains_prefix (s p : string) :
  strings_HasPrefix s p = true → strings_Contains s p = true.
Proof. intros Hp. destruct s; simpl in *; by rewrite Hp. Qed.

Lemma strings_Contains_app_r (a s sub : string) :
  strings_Contains s sub = true → strings_Contains (a +:+ s) sub = true.
Proof.
  intros Hs. induction a as [|x a IH]; [done|].
  simpl. rewrite IH. apply orb_true_r.
Qed.

Lemma strings_Contains_middle (a sub b : string) :
  strings_Contains (a +:+ sub +:+ b) sub = true.
Proof.
  apply strings_Contains_app_r, strings_Contains_prefix, strings_HasPrefix_app.
Qed.

Lemma strings_Contains_end (a sub : string) :
  strings_Contains (a +:+ sub) sub = true.
Proof.
  apply strings_Contains_app_r, strings_Contains_prefix.
  induction sub as [|x sub IH]; [done|]. simpl. by rewrite Ascii.eqb_refl.
Qed.

End Strings.

Section Resolver.
Context `{ServerResourcesInterface D}.

Lemma resource_of_kind_Some kind rs r :
  resource_of_kind kind rs = Some r ↔
  ∃ before after, rs = before ++ r :: after ∧
                  Forall (λ x, res_Kind x ≠ kind) before ∧ res_Kind r = kind.
Proof.
  induction rs as [|x rs IH]; simpl.
  - split; [done|]. intros (before & after & Hrs & _).
    by destruct before.
  - case_decide as Hx.
    + split.
      * intros [= <-]. exists [], rs. by repeat split.
      * intros ([|y before] & after & Hrs & Hb & Hr).
        -- by injection Hrs as <- _.
        -- injection Hrs as <- _. by inversion Hb.
    + rewrite IH. split.
      * intros (before & after & -> & Hb & Hr).
        exists (x :: before), after. repeat split; [|done]. by constructor.
      * intros ([|y before] & after & Hrs & Hb & Hr).
        -- injection Hrs as <- _. done.
        -- injection Hrs as <- ->. exists before, after.
           repeat split; [|done]. by inversion Hb.
Qed.

Lemma resource_of_kind_None kind rs :
  resource_of_kind kind rs = None ↔ Forall (λ x, res_Kind x ≠ kind) rs.
Proof.
  induction rs as [|x rs IH]; simpl; [by split|].
  case_decide as Hx.
  - split; [done|]. by inversion 1.
  - rewrite IH. split; [by constructor|by inversion 1].
Qed.

(** C9, amended.  Whatever the fetch of the resource list of the
    group-version of [gvk] does, this is what
    [serverResourceForGroupVersionKind] does.  When the fetch panics, or
    returns neither a list nor an error, it panics (in the second case on
    the nil list).  When the fetch returns a list or an error, it returns:
    a resource when the fetch gave no error and the list holds a resource of
    the kind, and then the first such resource of the list; an error
    exactly when the fetch gave an error or no resource of the list is of
    the kind, and the message of the error contains the group-version in
    the first case and the group-version-kind in the second. *)
Theorem resource_for_kind_or_error (gvk : GroupVersionKind) (disco : D) :
  let fetched_list :=
    disco_ServerResourcesForGroupVersion
      (GroupVersion_String (gvk_GroupVersion gvk)) disco in
  (∀ disco', fetched_list = Panicked disco' →
             serverResourceForGroupVersionKind gvk disco = Panicked disco') ∧
  (∀ resources ferr disco',
     fetched_list = Returned (resources, ferr) disco' →
     (resources = None → ferr = None →
      serverResourceForGroupVersionKind gvk disco = Panicked disco') ∧
     (is_Some resources ∨ is_Some ferr →
      ∃ res err,
        serverResourceForGroupVersionKind gvk disco = Returned (res, err) disco' ∧
        (∀ r, res = Some r ↔
              ferr = None ∧
              ∃ rl before after,
                resources = Some rl ∧
                rl_APIResources rl = before ++ r :: after ∧
                Forall (λ x, res_Kind x ≠ gvk_Kind gvk) before ∧
                res_Kind r = gvk_Kind gvk) ∧
        (is_Some err ↔
           is_Some ferr ∨
           ∃ rl, resources = Some rl ∧
                 Forall (λ x, res_Kind x ≠ gvk_Kind gvk) (rl_APIResources rl)) ∧
        (∀ e, err = Some e →
              strings_Contains (Error e)
                match ferr with
                | Some _ => GroupVersion_String (gvk_GroupVersion gvk)
                | None => GroupVersionKind_String gvk
                end = true))).
Proof.
  intros fetched_list. subst fetched_list. split.
  { intros disco' Hf. unfold serverResourceForGroupVersionKind. by rewrite Hf. }
  intros resources ferr disco' Hf. split.
  { intros -> ->. unfold serverResourceForGroupVersionKind. by rewrite Hf. }
  intros Hsome. unfold serverResourceForGroupVersionKind. rewrite Hf.
  destruct ferr as [fe|].
  - eexists _, _. split; [by destruct resources|].
    split; [|split].
    + intros r. split; [done|]. by intros [? _].
    + split; eauto.
    + intros e [= <-]. unfold Errorf_unable_to_fetch. cbn [Error].
      apply strings_Contains_middle.
  - destruct Hsome as [[rl ->]|[? ?]]; [|done].
    destruct (resource_of_kind (gvk_Kind gvk) (rl_APIResources rl))
      as [r|] eqn:Hr.
    + eexists _, _. split; [done|].
      pose proof Hr as Hr'. apply resource_of_kind_Some in Hr'.
      split; [|split].
      * intros r'. split.
        -- intros [= <-]. split; [done|].
           destruct Hr' as (before & after & ? & ? & ?).
           by exists rl, before, after.
        -- intros (_ & rl' & before & after & [= <-] & Hrs & Hb & Hk).
           rewrite <- Hr. apply resource_of_kind_Some.
           by exists before, after.
      * split; [by intros [? ?]|].
        intros [[? ?]|(rl' & [= <-] & Hall)]; [done|].
        apply resource_of_kind_None in Hall. congruence.
      * done.
    + eexists _, _. split; [done|].
      split; [|split].
      * intros r'. split; [done|].
        intros (_ & rl' & before & after & [= <-] & Hrs & Hb & Hk).
        assert (resource_of_kind (gvk_Kind gvk) (rl_APIResources rl) = Some r')
          by (apply resource_of_kind_Some; by exists before, after).
        congruence.
      * split; [|by eauto]. intros _. right. exists rl. split; [done|].
        by apply resource_of_kind_None.
      * intros e [= <-]. unfold Errorf_unable_to_handle. cbn [Error].
        apply strings_Contains_end.
Qed.

End Resolver.

(** * The tie-break, and the runs against the example providers *)

(** C1.  When the selection loops of [ServerPreferredResources] come to
    their end, then for every key the version and the resource selected are
    those of the tie-break of the specification (the first version seen is
    recorded, a later one replaces it if and only if it is the preferred
    version of the group) run over the occurrences of the key in the order
    of the groups and of their versions.  And against a provider with the
    group "apps", versions "v1beta1" and "v1", preferred version "v1", and
    "deployments" in both versions, the method returns "deployments" under
    "apps/v1" and nothing under "apps/v1beta1", whatever the order of the
    last loop. *)
Theorem preferred_version_wins :
  (∀ W (cl_W : DiscoveryInterface W) (c : memcachedDiscoveryClient W) gl c1 st c2,
     ServerGroups c = Returned (Some gl, None) c1 →
     select_groups (Groups gl) empty_selection c1 = Returned (inl st) c2 →
     ∃ vs, vs.*1 = visitation (Groups gl) ∧ fetched c1 vs c2 ∧
           ∀ k, grVersions st !! k =
                  fst <$> foldl tie_break None (sightings k vs) ∧
                grApiResources st !! k =
                  snd <$> foldl tie_break None (sightings k vs)) ∧
  (∀ range : MapRange,
     ServerPreferredResources range apps_client =
     Returned ([mkAPIResourceList "apps/v1beta1" [];
                mkAPIResourceList "apps/v1" [deployments]], None) apps_client2).
Proof.
  split.
  - intros W cl_W c gl c1 st c2. apply selection_is_tie_break.
  - intros range.
    destruct (ServerPreferredResources_returns range apps_client apps_groups
                apps_client1 apps_selection apps_client2)
      as (out & -> & Hh & Hw); [reflexivity|vm_compute; reflexivity|].
    pose proof (Forall2_length _ _ _ Hh) as Hlen.
    destruct out as [|[gv0 rs0] [|[gv1 rs1] [|? ?]]]; try discriminate Hlen.
    pose proof (Forall2_lookup_lr _ _ _ 0 _ _ Hh eq_refl eq_refl) as H0.
    pose proof (Forall2_lookup_lr _ _ _ 1 _ _ Hh eq_refl eq_refl) as H1.
    pose proof (Hw 0 _ eq_refl) as Hw0.
    pose proof (Hw 1 _ eq_refl) as Hw1.
    assert (winners_at apps_selection 0 = []) as E0 by (vm_compute; reflexivity).
    assert (winners_at apps_selection 1 = [deployments]) as E1
      by (vm_compute; reflexivity).
    rewrite E0 in Hw0. rewrite E1 in Hw1. simpl in *.
    apply Permutation_nil_r in Hw0. apply Permutation_singleton_r in Hw1.
    by subst.
Qed.

(** The rule of [preferred_version_wins] at [apps_server]: the key
    "apps"/"deployments" is seen under "v1beta1" and then under "v1". *)
Lemma preferred_version_wins_apps :
  ServerGroups apps_client = Returned (Some apps_groups, None) apps_client1 ∧
  select_groups (Groups apps_groups) empty_selection apps_client1
    = Returned (inl apps_selection) apps_client2 ∧
  ∃ vs, vs.*1 = visitation (Groups apps_groups) ∧
        fetched apps_client1 vs apps_client2 ∧
        ∀ k, grVersions apps_selection !! k =
               fst <$> foldl tie_break None (sightings k vs) ∧
             grApiResources apps_selection !! k =
               snd <$> foldl tie_break None (sightings k vs).
Proof.
  assert (ServerGroups apps_client
          = Returned (Some apps_groups, None) apps_client1) as Hg
    by reflexivity.
  assert (select_groups (Groups apps_groups) empty_selection apps_client1
          = Returned (inl apps_selection) apps_client2) as Hs
    by (vm_compute; reflexivity).
  split; [exact Hg|]. split; [exact Hs|].
  exact (proj1 preferred_version_wins _ _ apps_client apps_groups apps_client1
           apps_selection apps_client2 Hg Hs).
Defined.

Lemma subresources_never_selected_core :
  ServerGroups core_client = Returned (Some core_groups, None) core_client1 ∧
  select_groups (Groups core_groups) empty_selection core_client1
    = Returned (inl core_selection) core_client2 ∧
  (∀ k, is_Some (grVersions core_selection !! k) ∨
        is_Some (grApiResources core_selection !! k) →
        strings_Contains (gr_Resource k) "/" = false) ∧
  Forall (λ rl, Forall (λ r, strings_Contains (res_Name r) "/" = false)
                       (rl_APIResources rl))
         (returned_lists (ServerPreferredResources in_reverse core_client)).
Proof.
  assert (ServerGroups core_client
          = Returned (Some core_groups, None) core_client1) as Hg
    by reflexivity.
  assert (select_groups (Groups core_groups) empty_selection core_client1
          = Returned (inl core_selection) core_client2) as Hs
    by (vm_compute; reflexivity).
  split; [exact Hg|]. split; [exact Hs|].
  exact (subresources_never_selected in_reverse core_client core_groups
           core_client1 core_selection core_client2 Hg Hs).
Defined.

(** The run against [core_server], computed: "pods/status" is fetched and
    is not returned; the order of the resources is that of the last loop. *)
Example core_preferred_in_order :
  returned_lists (ServerPreferredResources in_order core_client)
  = [mkAPIResourceList "v1" [nodes; pods]].
Proof. vm_compute. reflexivity. Qed.

Example core_preferred_in_reverse :
  returned_lists (ServerPreferredResources in_reverse core_client)
  = [mkAPIResourceList "v1" [pods; nodes]].
Proof. vm_compute. reflexivity. Qed.

Example core_preferred_namespaced :
  returned_lists (ServerPreferredNamespacedResources true in_order core_client)
  = [mkAPIResourceList "v1" [pods]].
Proof. vm_compute. reflexivity. Qed.

Lemma preferred_lists_follow_visits_apps :
  ServerGroups apps_client = Returned (Some apps_groups, None) apps_client1 ∧
  select_groups (Groups apps_groups) empty_selection apps_client1
    = Returned (inl apps_selection) apps_client2 ∧
  ∃ out,
    ServerPreferredResources in_order apps_client
      = Returned (out, None) apps_client2 ∧
    rl_GroupVersion <$> out =
      (λ h, gvd_GroupVersion h.2) <$> visitation (Groups apps_groups) ∧
    (∀ k r, grApiResources apps_selection !! k = Some r →
       ∃ v p g ver rl,
         grVersions apps_selection !! k = Some v ∧
         visitation (Groups apps_groups) !! p = Some (g, ver) ∧
         grp_Name g = gr_Group k ∧ gvd_Version ver = v ∧
         out !! p = Some rl ∧ r ∈ rl_APIResources rl) ∧
    (∀ p rl, out !! p = Some rl →
             rl_APIResources rl ≡ₚ winners_at apps_selection p).
Proof.
  assert (ServerGroups apps_client
          = Returned (Some apps_groups, None) apps_client1) as Hg
    by reflexivity.
  assert (select_groups (Groups apps_groups) empty_selection apps_client1
          = Returned (inl apps_selection) apps_client2) as Hs
    by (vm_compute; reflexivity).
  split; [exact Hg|]. split; [exact Hs|].
  exact (preferred_lists_follow_visits in_order apps_client apps_groups
           apps_client1 apps_selection apps_client2 Hg Hs).
Defined.

Lemma Invalidate_then_fresh_call_apps :
  let pre := [MServerResourcesForGroupVersion "apps/v1beta1"; MServerVersion;
              MServerGroups] in
  let m := MServerResourcesForGroupVersion "apps/v1" in
  let c1 := run_reads pre (Invalidate used_apps_client) in
  Forall (λ m', slot_of m' ≠ slot_of m) pre ∧
  servergroups (Invalidate used_apps_client) = None ∧
  panics (read m c1) = false ∧
  calls (cl (state_after (read m c1))) = calls (cl c1) ++ [call_of m].
Proof.
  intros pre m c1.
  assert (Forall (λ m', slot_of m' ≠ slot_of m) pre) as Hpre
    by (repeat constructor; discriminate).
  split; [exact Hpre|].
  destruct (Invalidate_then_fresh_call used_apps_client pre m Hpre)
    as [(_ & Hg & _) [Hp Hc]].
  split; [exact Hg|]. split; [exact Hp|exact Hc].
Defined.

Lemma read_twice_one_call_apps :
  let m := MServerResourcesForGroupVersion "apps/v1" in
  let v := ResourcesValue (Some (mkAPIResourceList "apps/v1" [deployments])) in
  let c1 := state_after (read m recorded_apps_client) in
  slot_empty (slot_of m) recorded_apps_client ∧
  read m recorded_apps_client = Returned (v, None) c1 ∧
  calls (cl c1) = calls (cl recorded_apps_client) ++ [call_of m] ∧
  read m c1 = Returned (v, None) c1.
Proof.
  intros m v c1.
  assert (slot_empty (slot_of m) recorded_apps_client) as Hs by reflexivity.
  assert (read m recorded_apps_client = Returned (v, None) c1) as Hr
    by (vm_compute; reflexivity).
  split; [exact Hs|]. split; [exact Hr|].
  exact (read_twice_one_call m recorded_apps_client c1 v None Hs Hr).
Defined.

(** C4 as stated fails when the provider is down: the second call goes to
    the provider again. *)
Lemma twice_is_twice_when_down :
  ¬ twice_is_once MServerGroups
      (NewMemcachedDiscoveryClient (mkRecorder down_server [])).
Proof. intros [Hc _]. vm_compute in Hc. discriminate Hc. Qed.

(** C2 as stated fails when the provider is down: the nil it leaves in the
    slot is not served by the next call, which fails like the first. *)
Lemma nil_is_fetched_again :
  ¬ failed_fetch_served_as_nil MServerGroups
      (NewMemcachedDiscoveryClient (mkRecorder down_server [])).
Proof.
  intros Hc.
  destruct (Hc unreachable (mkRecorder down_server [CallServerGroups])
              eq_refl eq_refl) as [_ Hr].
  vm_compute in Hr. discriminate Hr.
Qed.

Lemma failed_fetch_is_stored_partial :
  let m := MServerResourcesForGroupVersion "v1" in
  let c := NewMemcachedDiscoveryClient (mkRecorder partial_server []) in
  let v := ResourcesValue (Some (mkAPIResourceList "v1" [])) in
  let w := mkRecorder partial_server [call_of m] in
  m ∈ [MServerGroups; MServerResourcesForGroupVersion "v1"] ∧
  maps_made c ∧ slot_empty (slot_of m) c ∧
  fetch m (cl c) = ((v, Some unreachable), w) ∧
  ∃ c1, read m c = Returned (v, Some unreachable) c1 ∧ cl c1 = w ∧
        slot_entry (slot_of m) c1 = Some v ∧
        read m c1 = Returned (v, None) c1.
Proof.
  intros m c v w.
  assert (m ∈ [MServerGroups; MServerResourcesForGroupVersion "v1"]) as Hm
    by (repeat constructor).
  assert (maps_made c) as Hc by (split; eexists; reflexivity).
  assert (slot_empty (slot_of m) c) as Hs by reflexivity.
  assert (fetch m (cl c) = ((v, Some unreachable), w)) as Hf by reflexivity.
  split; [exact Hm|]. split; [exact Hc|]. split; [exact Hs|]. split; [exact Hf|].
  exact (failed_fetch_is_stored m "v1" c v unreachable w Hm Hc Hs Hf).
Defined.

Lemma error_is_not_stored_down :
  let m := MServerVersion in
  let c := NewMemcachedDiscoveryClient (mkRecorder down_server []) in
  let w := mkRecorder down_server [call_of m] in
  m ∈ [MServerVersion; MSwaggerSchema (mkGroupVersion "apps" "v1");
       MOpenAPISchema] ∧
  maps_made c ∧ slot_empty (slot_of m) c ∧
  fetch m (cl c) = ((VersionValue None, Some unreachable), w) ∧
  read m c = Returned (nil_value m, Some unreachable) (with_cl c w) ∧
  slot_empty (slot_of m) (with_cl c w) ∧
  calls (cl (state_after (read m (with_cl c w)))) = calls w ++ [call_of m].
Proof.
  intros m c w.
  assert (m ∈ [MServerVersion; MSwaggerSchema (mkGroupVersion "apps" "v1");
               MOpenAPISchema]) as Hm by (repeat constructor).
  assert (maps_made c) as Hc by (split; eexists; reflexivity).
  assert (slot_empty (slot_of m) c) as Hs by reflexivity.
  assert (fetch m (cl c) = ((VersionValue None, Some unreachable), w)) as Hf
    by reflexivity.
  split; [exact Hm|]. split; [exact Hc|]. split; [exact Hs|]. split; [exact Hf|].
  exact (error_is_not_stored m (mkGroupVersion "apps" "v1") c (VersionValue None)
           (Some unreachable) w Hm Hc Hs Hf).
Defined.

Lemma resource_for_kind_or_error_apps :
  let gvk := mkGroupVersionKind "apps" "v1" "Deployment" in
  let resources := Some (mkAPIResourceList "apps/v1" [deployments]) in
  let fetch_apps :=
    disco_ServerResourcesForGroupVersion
      (GroupVersion_String (gvk_GroupVersion gvk)) apps_client in
  fetch_apps = Returned (resources, None) (state_after fetch_apps) ∧
  (is_Some resources ∨ is_Some (@None error)) ∧
  ∃ res err,
    serverResourceForGroupVersionKind gvk apps_client
      = Returned (res, err) (state_after fetch_apps) ∧
    (∀ r, res = Some r ↔
          @None error = None ∧
          ∃ rl before after,
            resources = Some rl ∧
            rl_APIResources rl = before ++ r :: after ∧
            Forall (λ x, res_Kind x ≠ gvk_Kind gvk) before ∧
            res_Kind r = gvk_Kind gvk) ∧
    (is_Some err ↔
       is_Some (@None error) ∨
       ∃ rl, resources = Some rl ∧
             Forall (λ x, res_Kind x ≠ gvk_Kind gvk) (rl_APIResources rl)) ∧
    (∀ e, err = Some e →
          strings_Contains (Error e) (GroupVersionKind_String gvk) = true).
Proof.
  intros gvk resources fetch_apps.
  assert (fetch_apps = Returned (resources, None) (state_after fetch_apps)) as Hf
    by (vm_compute; reflexivity).
  assert (is_Some resources ∨ is_Some (@None error)) as Hsome
    by (left; eexists; reflexivity).
  split; [exact Hf|]. split; [exact Hsome|].
  exact (proj2 (proj2 (resource_for_kind_or_error gvk apps_client)
                  resources None (state_after fetch_apps) Hf) Hsome).
Defined.

(** C9 as stated fails at a provider that answers the fetch for "apps/v1"
    with neither a list nor an error: the fetch does not fail, and the
    lookup does not return, with an error or without one. *)
Lemma resolver_panics_on_nil_list :
  ¬ returns_error_exactly_when_no_match
      (mkGroupVersionKind "apps" "v1" "Deployment")
      (apps_client_answering (None, None)).
Proof.
  intros Hc.
  destruct (Hc None None
              (state_after (ServerResourcesForGroupVersion "apps/v1"
                              (apps_client_answering (None, None)))))
    as (res & err & disco' & Hr & _).
  - vm_compute. reflexivity.
  - vm_compute in Hr. discriminate Hr.
Qed.

(** The same lookup, computed: the resource of the kind is found, and a
    kind that no resource has gives the error that names it. *)
Example resource_for_kind_found :
  ∃ disco',
    serverResourceForGroupVersionKind
      (mkGroupVersionKind "apps" "v1" "Deployment") apps_client
    = Returned (Some deployments, None) disco'.
Proof. eexists. vm_compute. reflexivity. Qed.

Example resource_for_kind_not_found :
  ∃ disco',
    serverResourceForGroupVersionKind
      (mkGroupVersionKind "apps" "v1" "StatefulSet") apps_client
    = Returned (None, Some (errorString
        "Server is unable to handle apps/v1, Kind=StatefulSet")) disco'.
Proof. eexists. vm_compute. reflexivity. Qed.

(** * Further properties: the loops over groups and versions *)

Section LoopFacts.
Context `{DiscoveryInterface W}.

Local Abbreviation client := (memcachedDiscoveryClient W).

Lemma visitation_cons g groups :
  visitation (g :: groups) =
  ((λ ver, (g, ver)) <$> grp_Versions g) ++ visitation groups.
Proof. done. Qed.

Lemma group_versions_cons g groups :
  group_versions (g :: groups) =
  (gvd_GroupVersion <$> grp_Versions g) ++ group_versions groups.
Proof.
  unfold group_versions. rewrite visitation_cons, fmap_app. f_equal.
  by rewrite <- list_fmap_compose.
Qed.

Lemma fetches_app (c c1 c2 : client) ks1 rs1 ks2 rs2 :
  fetches c ks1 rs1 c1 → fetches c1 ks2 rs2 c2 →
  fetches c (ks1 ++ ks2) (rs1 ++ rs2) c2.
Proof. induction 1; intros; simpl; [done|econstructor; eauto]. Qed.

Lemma fetches_app_inv (c c2 : client) ks1 ks2 rs :
  fetches c (ks1 ++ ks2) rs c2 →
  ∃ rs1 rs2 c1, rs = rs1 ++ rs2 ∧ fetches c ks1 rs1 c1 ∧ fetches c1 ks2 rs2 c2.
Proof.
  revert c rs. induction ks1 as [|k ks1 IH]; intros c rs Hf; simpl in *.
  - exists [], rs, c. repeat split; [constructor|done].
  - inversion Hf as [|? c' ? ? r ? rs' Hc Hrest]; subst.
    destruct (IH _ _ Hrest) as (rs1 & rs2 & c1 & -> & H1 & H2).
    exists (r :: rs1), rs2, c1. repeat split; [by econstructor|done].
Qed.

Lemma fetches_length (c c2 : client) ks rs :
  fetches c ks rs c2 → length rs = length ks.
Proof. induction 1; simpl; congruence. Qed.

(** The loop of [ServerResources] over the versions of one group. *)
Lemma ServerResources_versions_fetches versions res (c : client) res' c' :
  ServerResources_versions versions res c = Returned (inl res') c' ↔
  ∃ rs, res' = res ++ rs ∧ fetches c (gvd_GroupVersion <$> versions) rs c'.
Proof.
  revert res c. induction versions as [|ver versions IH]; intros res c; simpl.
  - split.
    + intros [= <- <-]. exists []. split; [by rewrite app_nil_r|constructor].
    + intros (rs & -> & Hf). inversion Hf; subst. by rewrite app_nil_r.
  - split.
    + destruct (ServerResourcesForGroupVersion (gvd_GroupVersion ver) c)
        as [[r [e|]] c1|c1] eqn:Hc; try done.
      intros (rs & -> & Hf)%IH. exists (r :: rs).
      split; [by rewrite <- app_assoc|by econstructor].
    + intros (rs & -> & Hf).
      inversion Hf as [|? c1 ? ? r ? rs' Hc Hrest]; subst.
      rewrite Hc. apply IH. exists rs'. split; [by rewrite <- app_assoc|done].
Qed.

Lemma ServerResources_groups_fetches groups res (c : client) res' c' :
  ServerResources_groups groups res c = Returned (inl res') c' ↔
  ∃ rs, res' = res ++ rs ∧ fetches c (group_versions groups) rs c'.
Proof.
  revert res c. induction groups as [|g groups IH]; intros res c.
  - simpl. split.
    + intros [= <- <-]. exists []. split; [by rewrite app_nil_r|constructor].
    + intros (rs & -> & Hf). inversion Hf; subst. by rewrite app_nil_r.
  - rewrite group_versions_cons. simpl. split.
    + destruct (ServerResources_versions (grp_Versions g) res c)
        as [[res1|e] c1|c1] eqn:Hc; try done.
      apply ServerResources_versions_fetches in Hc as (rs1 & -> & Hf1).
      intros (rs2 & -> & Hf2)%IH. exists (rs1 ++ rs2).
      split; [by rewrite app_assoc|by eapply fetches_app].
    + intros (rs & -> & Hf).
      apply fetches_app_inv in Hf as (rs1 & rs2 & c1 & -> & Hf1 & Hf2).
      rewrite (proj2 (ServerResources_versions_fetches (grp_Versions g) res c
                        (res ++ rs1) c1)) by eauto.
      apply IH. exists rs2. split; [by rewrite app_assoc|done].
Qed.

(** A fetch that gives an error ends the loop of [ServerResources] over the
    versions of a group. *)
Lemma ServerResources_versions_error versions res (c c2 c3 : client)
    ks1 k ks2 rs x e :
  gvd_GroupVersion <$> versions = ks1 ++ k :: ks2 →
  fetches c ks1 rs c2 →
  ServerResourcesForGroupVersion k c2 = Returned (x, Some e) c3 →
  ServerResources_versions versions res c = Returned (inr e) c3.
Proof.
  intros Hks Hf Hk. revert versions res Hks.
  induction Hf as [c|c c1 c2 k0 r ks rs Hc Hrest IH]; intros versions res Hks.
  - destruct versions as [|ver versions]; [done|].
    injection Hks as Hver _. simpl. by rewrite Hver, Hk.
  - destruct versions as [|ver versions]; [done|].
    injection Hks as Hver Hks. simpl. rewrite Hver, Hc. by apply IH.
Qed.

Lemma ServerResources_groups_error groups res (c c2 c3 : client)
    ks1 k ks2 rs x e :
  group_versions groups = ks1 ++ k :: ks2 →
  fetches c ks1 rs c2 →
  ServerResourcesForGroupVersion k c2 = Returned (x, Some e) c3 →
  ServerResources_groups groups res c = Returned (inr e) c3.
Proof.
  revert res c ks1 rs. induction groups as [|g groups IH];
    intros res c ks1 rs Hks Hf Hk.
  - by destruct ks1.
  - rewrite group_versions_cons in Hks. simpl.
    apply app_eq_inv in Hks as [(ks & Hg & Hrest)|(ks & -> & Hrest)].
    + destruct ks as [|k' ks].
      * rewrite app_nil_r in Hg. simpl in Hrest. subst ks1.
        rewrite (proj2 (ServerResources_versions_fetches (grp_Versions g) res c
                          (res ++ rs) c2)) by eauto.
        apply (IH _ _ [] []); [by rewrite <- Hrest|constructor|done].
      * injection Hrest as <- ->.
        by rewrite (ServerResources_versions_error _ res c c2 c3 ks1 k ks rs x e).
    + apply fetches_app_inv in Hf as (rs1 & rs2 & c1 & -> & Hf1 & Hf2).
      rewrite (proj2 (ServerResources_versions_fetches (grp_Versions g) res c
                        (res ++ rs1) c1)) by eauto.
      by apply (IH _ _ ks rs2).
Qed.

End LoopFacts.

Section SelectLoopFacts.
Context `{DiscoveryInterface W}.

Local Abbreviation client := (memcachedDiscoveryClient W).

Lemma select_versions_headers g versions st (c : client) :
  select_versions g versions st c =
  select_headers ((λ ver, (g, ver)) <$> versions) st c.
Proof.
  revert st c. induction versions as [|ver versions IH]; intros st c; [done|].
  simpl.
  destruct (ServerResourcesForGroupVersion (gvd_GroupVersion ver) c)
    as [[[rl|] [e|]] c1|c1]; try done.
Qed.

Lemma select_headers_app hs1 hs2 st (c : client) :
  select_headers (hs1 ++ hs2) st c =
  match select_headers hs1 st c with
  | Returned (inl st') c' => select_headers hs2 st' c'
  | Returned (inr e) c' => Returned (inr e) c'
  | Panicked c' => Panicked c'
  end.
Proof.
  revert st c. induction hs1 as [|h hs1 IH]; intros st c; [done|].
  simpl.
  destruct (ServerResourcesForGroupVersion (gvd_GroupVersion h.2) c)
    as [[[rl|] [e|]] c1|c1]; try done.
Qed.

Lemma select_groups_headers groups st (c : client) :
  select_groups groups st c = select_headers (visitation groups) st c.
Proof.
  revert st c. induction groups as [|g groups IH]; intros st c; [done|].
  rewrite visitation_cons, select_headers_app, <- select_versions_headers.
  simpl. destruct (select_versions g (grp_Versions g) st c)
    as [[st1|e] c1|c1]; try done.
Qed.

(** The first fetch that does not give a list decides how the selection
    loops end: with its error, or, when it gives neither a list nor an
    error, with a panic. *)
Lemma select_headers_stops hs1 h hs2 st (c c2 c3 : client) rs x err :
  fetches c ((λ h, gvd_GroupVersion h.2) <$> hs1) rs c2 →
  Forall is_Some rs →
  ServerResourcesForGroupVersion (gvd_GroupVersion h.2) c2
    = Returned (x, err) c3 →
  (∀ e, err = Some e →
        select_headers (hs1 ++ h :: hs2) st c = Returned (inr e) c3) ∧
  (x = None → err = None →
   select_headers (hs1 ++ h :: hs2) st c = Panicked c3).
Proof.
  revert st c rs. induction hs1 as [|h1 hs1 IH]; intros st c rs Hf Hrs Hk.
  - inversion Hf; subst. simpl. rewrite Hk. split.
    + intros e ->. by destruct x.
    + by intros -> ->.
  - rewrite fmap_cons in Hf.
    inversion Hf as [|? c1 ? ? r ? rs' Hc Hrest]; subst.
    apply Forall_cons in Hrs as [[rl ->] Hrs].
    simpl. rewrite Hc. by eapply IH.
Qed.

Lemma group_versions_split groups ks1 k ks2 :
  group_versions groups = ks1 ++ k :: ks2 →
  ∃ hs1 h hs2, visitation groups = hs1 ++ h :: hs2 ∧
               (λ h, gvd_GroupVersion h.2) <$> hs1 = ks1 ∧
               gvd_GroupVersion h.2 = k.
Proof.
  unfold group_versions.
  intros (hs1 & hs' & -> & Hk & ->)%fmap_app_inv.
  symmetry in Hk. apply fmap_cons_inv in Hk as (h & hs2 & -> & _ & ->).
  by exists hs1, h, hs2.
Qed.

(** X1.  After [ServerGroups] has returned a group list, [ServerResources]
    returns without an error exactly when the fetches for the versions of
    the groups, one after the other in the order of the groups and of their
    versions, all return without an error; what it returns is then the
    list of the pointers these fetches returned, a nil one included. *)
Theorem ServerResources_returns_fetches (c c1 : client) gl res c2 :
  ServerGroups c = Returned (Some gl, None) c1 →
  ServerResources c = Returned (res, None) c2 ↔
  fetches c1 (group_versions (Groups gl)) res c2.
Proof.
  intros Hg. unfold ServerResources. rewrite Hg. split.
  - destruct (ServerResources_groups (Groups gl) [] c1)
      as [[res'|e] c'|c'] eqn:Hr; try done.
    intros [= <- <-].
    by apply ServerResources_groups_fetches in Hr as (rs & -> & Hf).
  - intros Hf.
    by rewrite (proj2 (ServerResources_groups_fetches (Groups gl) [] c1 res c2))
      by eauto.
Qed.

(** X2.  The first fetch that gives an error ends the walk over the
    versions: [ServerResources] returns nil and that error, in the state
    the failed fetch left; when the fetches before it all gave a list, so
    does [ServerPreferredResources], and
    [ServerPreferredNamespacedResources] returns that error next to what
    [FilteredBy] makes of the nil lists, in the same state. *)
Theorem fetch_error_aborts (c c1 c2 c3 : client) gl ks1 k ks2 rs x e :
  ServerGroups c = Returned (Some gl, None) c1 →
  group_versions (Groups gl) = ks1 ++ k :: ks2 →
  fetches c1 ks1 rs c2 →
  ServerResourcesForGroupVersion k c2 = Returned (x, Some e) c3 →
  ServerResources c = Returned ([], Some e) c3 ∧
  (Forall is_Some rs →
   ∀ dropEmpty range,
     ServerPreferredResources range c = Returned ([], Some e) c3 ∧
     ServerPreferredNamespacedResources dropEmpty range c
       = Returned (FilteredBy dropEmpty (λ _ r, res_Namespaced r) [], Some e)
                  c3).
Proof.
  intros Hg Hks Hf Hk. split.
  - unfold ServerResources. rewrite Hg.
    by rewrite (ServerResources_groups_error (Groups gl) [] c1 c2 c3
                  ks1 k ks2 rs x e).
  - intros Hrs dropEmpty range.
    assert (ServerPreferredResources range c = Returned ([], Some e) c3) as Hp.
    { unfold ServerPreferredResources. rewrite Hg, select_groups_headers.
      destruct (group_versions_split _ _ _ _ Hks) as (hs1 & h & hs2 & -> & <- & <-).
      by rewrite (proj1 (select_headers_stops hs1 h hs2 empty_selection
                           c1 c2 c3 rs x (Some e) Hf Hrs Hk) e eq_refl). }
    split; [done|]. unfold ServerPreferredNamespacedResources. by rewrite Hp.
Qed.

(** X3.  A fetch that gives neither a list nor an error, after fetches that
    all gave a list, makes [ServerPreferredResources] (and with it
    [ServerPreferredNamespacedResources]) panic, in the state that fetch
    left. *)
Theorem nil_list_panics (c c1 c2 c3 : client) gl ks1 k ks2 rs dropEmpty range :
  ServerGroups c = Returned (Some gl, None) c1 →
  group_versions (Groups gl) = ks1 ++ k :: ks2 →
  fetches c1 ks1 rs c2 →
  Forall is_Some rs →
  ServerResourcesForGroupVersion k c2 = Returned (None, None) c3 →
  ServerPreferredResources range c = Panicked c3 ∧
  ServerPreferredNamespacedResources dropEmpty range c = Panicked c3.
Proof.
  intros Hg Hks Hf Hrs Hk.
  assert (ServerPreferredResources range c = Panicked c3) as Hp.
  { unfold ServerPreferredResources. rewrite Hg, select_groups_headers.
    destruct (group_versions_split _ _ _ _ Hks) as (hs1 & h & hs2 & -> & <- & <-).
    by rewrite (proj2 (select_headers_stops hs1 h hs2 empty_selection
                         c1 c2 c3 rs None None Hf Hrs Hk) eq_refl eq_refl). }
  split; [done|]. unfold ServerPreferredNamespacedResources. by rewrite Hp.
Qed.

End SelectLoopFacts.

Lemma ServerResources_returns_fetches_apps :
  let v1 : reply APIResourceList := (None, None) in
  let res := [Some (mkAPIResourceList "apps/v1beta1" [deployments]); None] in
  ServerGroups (apps_client_answering v1)
    = Returned (Some apps_groups, None) (apps_client_answering1 v1) ∧
  (ServerResources (apps_client_answering v1)
     = Returned (res, None) (apps_client_answering3 v1) ↔
   fetches (apps_client_answering1 v1) (group_versions (Groups apps_groups))
           res (apps_client_answering3 v1)).
Proof.
  intros v1 res.
  assert (ServerGroups (apps_client_answering v1)
          = Returned (Some apps_groups, None) (apps_client_answering1 v1)) as Hg
    by reflexivity.
  split; [exact Hg|].
  exact (ServerResources_returns_fetches (apps_client_answering v1)
           (apps_client_answering1 v1) apps_groups res
           (apps_client_answering3 v1) Hg).
Defined.

Lemma fetch_error_aborts_apps :
  let v1 : reply APIResourceList := (None, Some unreachable) in
  let rs := [Some (mkAPIResourceList "apps/v1beta1" [deployments])] in
  ServerGroups (apps_client_answering v1)
    = Returned (Some apps_groups, None) (apps_client_answering1 v1) ∧
  group_versions (Groups apps_groups) = ["apps/v1beta1"] ++ "apps/v1" :: [] ∧
  fetches (apps_client_answering1 v1) ["apps/v1beta1"] rs
          (apps_client_answering2 v1) ∧
  Forall is_Some rs ∧
  ServerResourcesForGroupVersion "apps/v1" (apps_client_answering2 v1)
    = Returned (None, Some unreachable) (apps_client_answering3 v1) ∧
  ServerResources (apps_client_answering v1)
    = Returned ([], Some unreachable) (apps_client_answering3 v1) ∧
  ServerPreferredResources in_order (apps_client_answering v1)
    = Returned ([], Some unreachable) (apps_client_answering3 v1).
Proof.
  intros v1 rs.
  assert (ServerGroups (apps_client_answering v1)
          = Returned (Some apps_groups, None) (apps_client_answering1 v1)) as Hg
    by reflexivity.
  assert (group_versions (Groups apps_groups)
          = ["apps/v1beta1"] ++ "apps/v1" :: []) as Hks by reflexivity.
  assert (fetches (apps_client_answering1 v1) ["apps/v1beta1"] rs
                  (apps_client_answering2 v1)) as Hf
    by (econstructor; [vm_compute; reflexivity|constructor]).
  assert (Forall is_Some rs) as Hrs
    by (repeat constructor; eexists; reflexivity).
  assert (ServerResourcesForGroupVersion "apps/v1" (apps_client_answering2 v1)
          = Returned (None, Some unreachable) (apps_client_answering3 v1)) as Hk
    by (vm_compute; reflexivity).
  destruct (fetch_error_aborts _ _ _ _ apps_groups _ _ _ rs None unreachable
              Hg Hks Hf Hk) as [Hr Hp].
  destruct (Hp Hrs true in_order) as [Hp1 _].
  repeat split; assumption.
Defined.

Lemma nil_list_panics_apps :
  let v1 : reply APIResourceList := (None, None) in
  let rs := [Some (mkAPIResourceList "apps/v1beta1" [deployments])] in
  ServerGroups (apps_client_answering v1)
    = Returned (Some apps_groups, None) (apps_client_answering1 v1) ∧
  group_versions (Groups apps_groups) = ["apps/v1beta1"] ++ "apps/v1" :: [] ∧
  fetches (apps_client_answering1 v1) ["apps/v1beta1"] rs
          (apps_client_answering2 v1) ∧
  Forall is_Some rs ∧
  ServerResourcesForGroupVersion "apps/v1" (apps_client_answering2 v1)
    = Returned (None, None) (apps_client_answering3 v1) ∧
  ServerPreferredResources in_order (apps_client_answering v1)
    = Panicked (apps_client_answering3 v1) ∧
  ServerPreferredNamespacedResources true in_order (apps_client_answering v1)
    = Panicked (apps_client_answering3 v1).
Proof.
  intros v1 rs.
  assert (ServerGroups (apps_client_answering v1)
          = Returned (Some apps_groups, None) (apps_client_answering1 v1)) as Hg
    by reflexivity.
  assert (group_versions (Groups apps_groups)
          = ["apps/v1beta1"] ++ "apps/v1" :: []) as Hks by reflexivity.
  assert (fetches (apps_client_answering1 v1) ["apps/v1beta1"] rs
                  (apps_client_answering2 v1)) as Hf
    by (econstructor; [vm_compute; reflexivity|constructor]).
  assert (Forall is_Some rs) as Hrs
    by (repeat constructor; eexists; reflexivity).
  assert (ServerResourcesForGroupVersion "apps/v1" (apps_client_answering2 v1)
          = Returned (None, None) (apps_client_answering3 v1)) as Hk
    by (vm_compute; reflexivity).
  repeat (split; [assumption|]).
  exact (nil_list_panics _ _ _ _ apps_groups _ _ _ rs true in_order
           Hg Hks Hf Hrs Hk).
Defined.

(** * Further properties: what stays in the cache *)

Section Preserved.
Context `{DiscoveryInterface W}.

Local Abbreviation client := (memcachedDiscoveryClient W).

Variable P : client → Prop.
Hypothesis P_ServerGroups : ∀ c, P c → P (state_after (ServerGroups c)).
Hypothesis P_fetch :
  ∀ gv c, P c → P (state_after (ServerResourcesForGroupVersion gv c)).

Lemma select_headers_preserves hs st (c : client) :
  P c → P (state_after (select_headers hs st c)).
Proof.
  revert st c. induction hs as [|h hs IH]; intros st c Hc; [done|].
  simpl. pose proof (P_fetch (gvd_GroupVersion h.2) c Hc) as Hc'.
  destruct (ServerResourcesForGroupVersion _ c) as [[[rl|] [e|]] c1|c1];
    simpl in *; try done.
  by apply IH.
Qed.

Lemma ServerResources_versions_preserves versions res (c : client) :
  P c → P (state_after (ServerResources_versions versions res c)).
Proof.
  revert res c. induction versions as [|ver versions IH]; intros res c Hc; [done|].
  simpl. pose proof (P_fetch (gvd_GroupVersion ver) c Hc) as Hc'.
  destruct (ServerResourcesForGroupVersion _ c) as [[rl [e|]] c1|c1];
    simpl in *; try done.
  by apply IH.
Qed.

Lemma ServerResources_groups_preserves groups res (c : client) :
  P c → P (state_after (ServerResources_groups groups res c)).
Proof.
  revert res c. induction groups as [|g groups IH]; intros res c Hc; [done|].
  simpl.
  pose proof (ServerResources_versions_preserves (grp_Versions g) res c Hc) as Hc'.
  destruct (ServerResources_versions _ res c) as [[res1|e] c1|c1];
    simpl in *; try done.
  by apply IH.
Qed.

Lemma ServerResources_preserves (c : client) :
  P c → P (state_after (ServerResources c)).
Proof.
  intros Hc. unfold ServerResources.
  pose proof (P_ServerGroups c Hc) as Hc1.
  destruct (ServerGroups c) as [[[gl|] [e|]] c1|c1]; simpl in *; try done.
  pose proof (ServerResources_groups_preserves (Groups gl) [] c1 Hc1) as Hc2.
  by destruct (ServerResources_groups _ _ c1) as [[res|e] c2|c2].
Qed.

Lemma ServerPreferredResources_preserves range (c : client) :
  P c → P (state_after (ServerPreferredResources range c)).
Proof.
  intros Hc. unfold ServerPreferredResources.
  pose proof (P_ServerGroups c Hc) as Hc1.
  destruct (ServerGroups c) as [[[gl|] [e|]] c1|c1]; simpl in *; try done.
  rewrite select_groups_headers.
  pose proof (select_headers_preserves (visitation (Groups gl))
                empty_selection c1 Hc1) as Hc2.
  destruct (select_headers _ _ c1) as [[st|e] c2|c2]; simpl in *; try done.
  by destruct (group_loop _ _ _).
Qed.

Lemma walk_preserves op (c : client) :
  walks op = true → P c → P (run_op op c).
Proof.
  intros Hop Hc. destruct op as [| |m| |range|dropEmpty range]; try done; simpl.
  - by apply ServerResources_preserves.
  - by apply ServerPreferredResources_preserves.
  - pose proof (ServerPreferredResources_preserves range c Hc) as Hc'.
    unfold ServerPreferredNamespacedResources.
    by destruct (ServerPreferredResources range c) as [[? ?] ?|?].
Qed.

End Preserved.

Section KeptFacts.
Context `{DiscoveryInterface W}.

Local Abbreviation client := (memcachedDiscoveryClient W).

(** A read finds what its slot holds, when that is not nil, and leaves the
    state as it is. *)
Lemma read_hit m (c : client) v :
  slot_value (slot_of m) c = v → is_nil v = false →
  read m c = Returned (v, None) c.
Proof.
  intros <- Hv. destruct m; simpl in *.
  - unfold ServerGroups. by destruct (servergroups c).
  - unfold ServerResourcesForGroupVersion. by destruct (map_index _ _).
  - unfold ServerVersion. by destruct (serverVersion c).
  - unfold SwaggerSchema. by destruct (map_index _ _).
  - unfold OpenAPISchema. by destruct (schema c).
Qed.

(** A read of any slot leaves a slot that holds a value as it is. *)
Lemma read_keeps m s (c : client) v :
  slot_value s c = v → is_nil v = false →
  slot_value s (state_after (read m c)) = v.
Proof.
  intros Hs Hv.
  destruct (decide (slot_of m = s)) as [<-|Hne].
  { by rewrite (read_hit m c v). }
  subst v. destruct m; simpl; rewrite state_after_answer.
  - unfold ServerGroups. destruct (servergroups c); [done|].
    destruct (cl_ServerGroups (cl c)) as [[g err] w].
    by destruct s.
  - unfold ServerResourcesForGroupVersion.
    destruct (map_index _ _); [done|].
    destruct (cl_ServerResourcesForGroupVersion _ (cl c)) as [[v err] w].
    destruct (serverresources c) as [m|] eqn:Hm.
    + destruct s; simpl in *; try done.
      rewrite Hm. simpl. rewrite lookup_insert_ne; [done|congruence].
    + destruct s; simpl in *; try done. by rewrite Hm.
  - unfold ServerVersion. destruct (serverVersion c); [done|].
    destruct (cl_ServerVersion (cl c)) as [[v [e|]] w]; by destruct s.
  - unfold SwaggerSchema.
    destruct (map_index _ _); [done|].
    destruct (cl_SwaggerSchema _ (cl c)) as [[v [e|]] w].
    + by destruct s.
    + destruct (schemas c) as [m|] eqn:Hm.
      * destruct s; simpl in *; try done.
        rewrite Hm. simpl. rewrite lookup_insert_ne; [done|congruence].
      * destruct s; simpl in *; try done. by rewrite Hm.
  - unfold OpenAPISchema. destruct (schema c); [done|].
    destruct (cl_OpenAPISchema (cl c)) as [[v [e|]] w]; by destruct s.
Qed.

Lemma ServerGroups_keeps s (c : client) v :
  slot_value s c = v → is_nil v = false →
  slot_value s (state_after (ServerGroups c)) = v.
Proof.
  intros Hs Hv. pose proof (read_keeps MServerGroups s c v Hs Hv) as Hk.
  simpl in Hk. by rewrite state_after_answer in Hk.
Qed.

Lemma fetch_keeps gv s (c : client) v :
  slot_value s c = v → is_nil v = false →
  slot_value s (state_after (ServerResourcesForGroupVersion gv c)) = v.
Proof.
  intros Hs Hv.
  pose proof (read_keeps (MServerResourcesForGroupVersion gv) s c v Hs Hv) as Hk.
  simpl in Hk. by rewrite state_after_answer in Hk.
Qed.

Lemma run_op_keeps op s (c : client) v :
  op ≠ OpInvalidate →
  slot_value s c = v → is_nil v = false →
  slot_value s (run_op op c) = v.
Proof.
  intros Hop Hs Hv.
  destruct (walks op) eqn:Hw.
  - apply (walk_preserves (λ c, slot_value s c = v)); try done.
    + intros c' Hc'. by apply ServerGroups_keeps.
    + intros gv c' Hc'. by apply fetch_keeps.
  - destruct op as [| |m| |range|dropEmpty range]; try done.
    by apply read_keeps.
Qed.

(** X4.  What a slot holds, when it is not nil, stays there through every
    sequence of operations without [Invalidate], whatever the provider
    answers meanwhile and however the operations end; the read of the slot
    afterwards returns that value, with no error, and leaves the state as it
    is. *)
Theorem cached_value_is_kept (ops : list Op) (m : Method) (c : client) v :
  Forall (λ op, op ≠ OpInvalidate) ops →
  slot_value (slot_of m) c = v → is_nil v = false →
  slot_value (slot_of m) (run_ops ops c) = v ∧
  read m (run_ops ops c) = Returned (v, None) (run_ops ops c).
Proof.
  intros Hops Hs Hv.
  assert (slot_value (slot_of m) (run_ops ops c) = v) as Hkept.
  { revert c Hs. induction Hops as [|op ops Hop Hops IH]; intros c Hs; [done|].
    simpl. apply IH. by apply run_op_keeps. }
  split; [done|]. by apply read_hit.
Qed.

(** X5.  [SwaggerSchema] keeps a schema under the string of the
    group-version: once it has returned a schema for one group-version, it
    returns the same schema, from the cache, for every group-version with
    the same string. *)
Theorem schemas_are_kept_by_string (v v' : GroupVersion) (c c1 : client) s :
  GroupVersion_String v = GroupVersion_String v' →
  SwaggerSchema v c = Returned (Some s, None) c1 →
  SwaggerSchema v' c1 = Returned (Some s, None) c1.
Proof.
  intros Hkey Hr.
  assert (map_index (schemas c1) (GroupVersion_String v) = Some s) as Hs.
  { unfold SwaggerSchema in Hr.
    destruct (map_index (schemas c) _) as [s0|] eqn:Hs0.
    - by injection Hr as -> <-.
    - destruct (cl_SwaggerSchema v (cl c)) as [[s0 [e|]] w]; [done|].
      destruct (schemas c) as [ss|]; [|done].
      injection Hr as -> <-. simpl. by rewrite lookup_insert_eq. }
  unfold SwaggerSchema. by rewrite <- Hkey, Hs.
Qed.

End KeptFacts.

Section ReplayFacts.
Context `{DiscoveryInterface W}.

Local Abbreviation client := (memcachedDiscoveryClient W).

Lemma fetch_stores k (c c1 : client) rl err :
  ServerResourcesForGroupVersion k c = Returned (Some rl, err) c1 →
  map_index (serverresources c1) k = Some rl.
Proof.
  unfold ServerResourcesForGroupVersion.
  destruct (map_index (serverresources c) k) as [v|] eqn:Hk.
  - by intros [= <- _ <-].
  - destruct (cl_ServerResourcesForGroupVersion k (cl c)) as [[v e] w].
    destruct (serverresources c) as [m|]; [|done].
    intros [= -> _ <-]. simpl. by rewrite lookup_insert_eq.
Qed.

Lemma fetch_hit k (c : client) rl :
  map_index (serverresources c) k = Some rl →
  ServerResourcesForGroupVersion k c = Returned (Some rl, None) c.
Proof. intros Hk. unfold ServerResourcesForGroupVersion. by rewrite Hk. Qed.

Lemma ServerGroups_stores (c c1 : client) gl err :
  ServerGroups c = Returned (Some gl, err) c1 → servergroups c1 = Some gl.
Proof.
  unfold ServerGroups. destruct (servergroups c) as [g|] eqn:Hg.
  - by intros [= <- _ <-].
  - destruct (cl_ServerGroups (cl c)) as [[g e] w]. by intros [= -> _ <-].
Qed.

Lemma ServerGroups_hit (c : client) gl :
  servergroups c = Some gl → ServerGroups c = Returned (Some gl, None) c.
Proof. intros Hg. unfold ServerGroups. by rewrite Hg. Qed.

Lemma fetches_keep s (c c2 : client) ks rs v :
  fetches c ks rs c2 →
  slot_value s c = v → is_nil v = false → slot_value s c2 = v.
Proof.
  induction 1 as [c|c c1 c2 k r ks rs Hc Hrest IH]; intros Hs Hv; [done|].
  apply IH; [|done].
  pose proof (fetch_keeps k s c v Hs Hv) as Hk. by rewrite Hc in Hk.
Qed.

(** After a chain of fetches, every list it gave is in the cache. *)
Lemma fetches_cached (c c2 : client) ks rs :
  fetches c ks rs c2 →
  Forall2 (λ k r, ∀ rl, r = Some rl →
                        map_index (serverresources c2) k = Some rl) ks rs.
Proof.
  induction 1 as [c|c c1 c2 k r ks rs Hc Hrest IH]; constructor; [|done].
  intros rl ->. apply fetch_stores in Hc.
  pose proof (fetches_keep (SlotServerresources k) c1 c2 ks rs
                (ResourcesValue (Some rl)) Hrest) as Hk.
  simpl in Hk. rewrite Hc in Hk.
  specialize (Hk eq_refl eq_refl). congruence.
Qed.

(** A chain of fetches that all gave a list can be run again in the state
    it left, and then leaves that state as it is. *)
Lemma fetches_again (c c2 : client) ks rs :
  fetches c ks rs c2 → Forall is_Some rs → fetches c2 ks rs c2.
Proof.
  intros Hf Hrs. apply fetches_cached in Hf.
  induction Hf as [|k r ks rs Hk Hrest IH]; [constructor|].
  apply Forall_cons in Hrs as [[rl ->] Hrs].
  econstructor; [|by apply IH]. apply fetch_hit. by apply Hk.
Qed.

Lemma fetched_fetches (c c2 : client) vs :
  fetched c vs c2 ↔
  fetches c ((λ h, gvd_GroupVersion h.2) <$> vs.*1) (Some <$> vs.*2) c2.
Proof.
  revert c. induction vs as [|[[g ver] rl] vs IH]; intros c.
  - split; inversion 1; subst; constructor.
  - split.
    + inversion 1 as [|? c1 ? ? ? ? ? Hc Hrest]; subst.
      rewrite !fmap_cons. econstructor; [exact Hc|]. by apply IH.
    + rewrite !fmap_cons. inversion 1 as [|? c1 ? ? ? ? ? Hc Hrest]; subst.
      econstructor; [exact Hc|]. by apply IH.
Qed.

Lemma fetched_again (c c2 : client) vs :
  fetched c vs c2 → fetched c2 vs c2.
Proof.
  intros Hf%fetched_fetches. apply fetched_fetches.
  apply (fetches_again c); [done|].
  apply Forall_fmap, Forall_forall. intros rl _. by eexists.
Qed.

Lemma fetched_keep s (c c2 : client) vs v :
  fetched c vs c2 →
  slot_value s c = v → is_nil v = false → slot_value s c2 = v.
Proof. intros Hf%fetched_fetches. by eapply fetches_keep. Qed.

Lemma ServerPreferredResources_inv range (c : client) out c2 :
  ServerPreferredResources range c = Returned (out, None) c2 →
  ∃ gl c1 st,
    ServerGroups c = Returned (Some gl, None) c1 ∧
    select_groups (Groups gl) empty_selection c1 = Returned (inl st) c2 ∧
    group_loop st (result st) (range (map_to_list (grApiResources st)))
      = Some out.
Proof.
  unfold ServerPreferredResources.
  destruct (ServerGroups c) as [[[gl|] [e|]] c1|c1]; try done.
  destruct (select_groups (Groups gl) empty_selection c1)
    as [[st|e] c'|c'] eqn:Hs; try done.
  destruct (group_loop _ _ _) as [out'|] eqn:Hl; [|done].
  intros [= <- <-]. by exists gl, c1, st.
Qed.

Lemma grouped_any_order hs st out out' :
  grouped hs st out → grouped hs st out' →
  Forall2 (λ a b, rl_GroupVersion a = rl_GroupVersion b ∧
                  rl_APIResources a ≡ₚ rl_APIResources b) out out'.
Proof.
  intros [Hh Hw] [Hh' Hw']. apply Forall2_same_length_lookup. split.
  - apply Forall2_length in Hh, Hh'. congruence.
  - intros p a b Ha Hb. split.
    + destruct (Forall2_lookup_r _ _ _ _ _ Hh Ha) as (h & Hp & ->).
      destruct (Forall2_lookup_r _ _ _ _ _ Hh' Hb) as (h' & Hp' & ->).
      congruence.
    + by rewrite (Hw p a Ha), (Hw' p b Hb).
Qed.

(** X6.  Once [ServerPreferredResources] has returned without an error, the
    cache holds all it needs: run again in the state it left, with the same
    order of the last loop it returns the same lists, and with any other
    order the same lists up to the order of the resources within each; the
    state, and so the provider, is left as it is. *)
Theorem ServerPreferredResources_from_cache range (c : client) out c2 :
  ServerPreferredResources range c = Returned (out, None) c2 →
  ServerPreferredResources range c2 = Returned (out, None) c2 ∧
  ∀ range', ∃ out',
    ServerPreferredResources range' c2 = Returned (out', None) c2 ∧
    Forall2 (λ a b, rl_GroupVersion a = rl_GroupVersion b ∧
                    rl_APIResources a ≡ₚ rl_APIResources b) out out'.
Proof.
  intros (gl & c1 & st & Hg & Hs & Hl)%ServerPreferredResources_inv.
  pose proof (select_groups_inv _ _ _ _ Hs) as Hinv.
  assert (ServerGroups c2 = Returned (Some gl, None) c2) as Hg2.
  { apply ServerGroups_hit. apply ServerGroups_stores in Hg.
    apply select_groups_fetched in Hs as (vs & _ & Hf & _).
    pose proof (fetched_keep SlotServergroups c1 c2 vs
                  (GroupsValue (Some gl)) Hf) as Hk.
    simpl in Hk. rewrite Hg in Hk. specialize (Hk eq_refl eq_refl).
    congruence. }
  assert (select_groups (Groups gl) empty_selection c2 = Returned (inl st) c2)
    as Hs2.
  { apply select_groups_fetched in Hs as (vs & Hvs & Hf & ->).
    apply select_groups_fetched. exists vs.
    split; [done|]. split; [by eapply fetched_again|done]. }
  split.
  - unfold ServerPreferredResources. by rewrite Hg2, Hs2, Hl.
  - intros range'.
    destruct (ServerPreferredResources_returns range' c2 gl c2 st c2 Hg2 Hs2)
      as (out' & Hout' & Hgr').
    exists out'. split; [done|].
    destruct (group_loop_grouped (visitation (Groups gl)) st range Hinv)
      as (out0 & Hout0 & Hgr).
    rewrite Hl in Hout0. injection Hout0 as <-.
    by eapply grouped_any_order.
Qed.

(** X7.  Once [ServerResources] has returned without an error and without a
    nil among the lists, it returns the same lists when run again in the
    state it left, and leaves that state, and so the provider, as it is. *)
Theorem ServerResources_from_cache (c : client) res c2 :
  ServerResources c = Returned (res, None) c2 →
  Forall is_Some res →
  ServerResources c2 = Returned (res, None) c2.
Proof.
  intros Hr Hres. unfold ServerResources in Hr.
  destruct (ServerGroups c) as [[[gl|] [e|]] c1|c1] eqn:Hg; try done.
  destruct (ServerResources_groups (Groups gl) [] c1)
    as [[res'|e] c'|c'] eqn:Hrs; try done.
  injection Hr as -> ->.
  apply ServerResources_groups_fetches in Hrs as (rs & -> & Hf). simpl in *.
  assert (ServerGroups c2 = Returned (Some gl, None) c2) as Hg2.
  { apply ServerGroups_hit. apply ServerGroups_stores in Hg.
    pose proof (fetches_keep SlotServergroups c1 c2 _ _
                  (GroupsValue (Some gl)) Hf) as Hk.
    simpl in Hk. rewrite Hg in Hk. specialize (Hk eq_refl eq_refl).
    congruence. }
  unfold ServerResources. rewrite Hg2.
  by rewrite (proj2 (ServerResources_groups_fetches (Groups gl) [] c2 rs c2))
    by eauto using fetches_again.
Qed.

End ReplayFacts.

Section WalkFacts.
Context `{DiscoveryInterface W}.

Local Abbreviation client := (memcachedDiscoveryClient (Recorder W)).

(** X8.  [ServerResources], [ServerPreferredResources] and
    [ServerPreferredNamespacedResources] leave the schemas, the unified
    schema and the server version in the cache as they are, and the only
    calls they make to the provider are calls for the group list and for
    resource lists. *)
Theorem walk_calls_discovery_only (op : Op) (c : client) :
  walks op = true →
  schemas (run_op op c) = schemas c ∧
  schema (run_op op c) = schema c ∧
  serverVersion (run_op op c) = serverVersion c ∧
  ∃ made, calls (cl (run_op op c)) = calls (cl c) ++ made ∧
          Forall (λ call, discovery_call call = true) made.
Proof.
  intros Hop.
  apply (walk_preserves
           (λ c', schemas c' = schemas c ∧ schema c' = schema c ∧
                  serverVersion c' = serverVersion c ∧
                  ∃ made, calls (cl c') = calls (cl c) ++ made ∧
                          Forall (λ call, discovery_call call = true) made));
    [| |done|].
  - intros c' (Hss & Hs & Hv & made & Hcalls & Hmade).
    unfold ServerGroups. destruct (servergroups c'); [by eauto 10|].
    simpl. unfold record.
    destruct (cl_ServerGroups (inner (cl c'))) as [[g e] w]. simpl.
    repeat split; try done.
    exists (made ++ [CallServerGroups]). rewrite Hcalls, app_assoc.
    split; [done|]. apply Forall_app. by repeat constructor.
  - intros gv c' (Hss & Hs & Hv & made & Hcalls & Hmade).
    unfold ServerResourcesForGroupVersion.
    destruct (map_index _ _); [by eauto 10|].
    simpl. unfold record.
    destruct (cl_ServerResourcesForGroupVersion gv (inner (cl c')))
      as [[g e] w]. simpl.
    assert (∃ made', calls (cl c') ++ [CallServerResourcesForGroupVersion gv]
                     = calls (cl c) ++ made' ∧
                     Forall (λ call, discovery_call call = true) made')
      as Hcalls'.
    { exists (made ++ [CallServerResourcesForGroupVersion gv]).
      rewrite Hcalls, app_assoc. split; [done|].
      apply Forall_app. by repeat constructor. }
    by destruct (serverresources c').
  - repeat split; try done. exists []. by rewrite app_nil_r.
Qed.

End WalkFacts.

(** * Further properties: what the aggregation returns *)

Section WinnerFacts.

Lemma winners_at_names hs st p :
  selection_inv hs st → NoDup (res_Name <$> winners_at st p).
Proof.
  intros Hinv. unfold winners_at. rewrite <- list_fmap_compose.
  apply NoDup_fmap_2_strong.
  - intros [k r] [k' r']
      [Hp Hk%elem_of_map_to_list]%list_elem_of_filter
      [Hp' Hk'%elem_of_map_to_list]%list_elem_of_filter Hname.
    simpl in *.
    destruct (selection_inv_pointer hs st k Hinv)
      as (v & p0 & g & ver & _ & Hp0 & _ & Hh & Hg & _); [by eauto|].
    destruct (selection_inv_pointer hs st k' Hinv)
      as (v' & p0' & g' & ver' & _ & Hp0' & _ & Hh' & Hg' & _); [by eauto|].
    assert (p0 = p) as -> by congruence.
    assert (p0' = p) as -> by congruence.
    assert (g' = g) as -> by congruence.
    destruct (inv_names _ _ Hinv k r Hk) as [Hn _].
    destruct (inv_names _ _ Hinv k' r' Hk') as [Hn' _].
    assert (k = k') as <-.
    { destruct k, k'. simpl in *. congruence. }
    congruence.
  - apply NoDup_filter, NoDup_map_to_list.
Qed.

Lemma concat_insert_snoc {A} (ll : list (list A)) i l x :
  ll !! i = Some l →
  concat (<[i := l ++ [x]]> ll) ≡ₚ concat ll ++ [x].
Proof.
  revert i. induction ll as [|l0 ll IH]; intros [|i] Hi; simplify_eq/=.
  - by rewrite <- !app_assoc, (Permutation_app_comm [x]).
  - by rewrite (IH i Hi), app_assoc.
Qed.

Lemma group_selected_concat st res kv res' :
  group_selected st res kv = Some res' →
  concat (rl_APIResources <$> res') ≡ₚ concat (rl_APIResources <$> res) ++ [kv.2].
Proof.
  destruct kv as [k r]. unfold group_selected. simpl.
  destruct (gvApiResourceLists st !! _) as [p|]; [|done]. simpl.
  destruct (res !! p) as [rl|] eqn:Hp; [|done]. simpl.
  intros [= <-]. rewrite list_fmap_insert. simpl.
  apply concat_insert_snoc. by rewrite list_lookup_fmap, Hp.
Qed.

(** The last loop appends every entry to one of the lists, once. *)
Lemma group_loop_concat st kvs res out :
  group_loop st res kvs = Some out →
  concat (rl_APIResources <$> out) ≡ₚ concat (rl_APIResources <$> res) ++ kvs.*2.
Proof.
  revert res. induction kvs as [|kv kvs IH]; intros res; simpl.
  - intros [= <-]. by rewrite app_nil_r.
  - destruct (group_selected st res kv) as [res'|] eqn:Hkv; [|done].
    intros Hout. rewrite (IH _ Hout), (group_selected_concat _ _ _ _ Hkv).
    by rewrite <- app_assoc.
Qed.

Lemma selection_inv_no_resources hs st :
  selection_inv hs st → concat (rl_APIResources <$> result st) = [].
Proof.
  intros Hinv. rewrite (inv_headers _ _ Hinv). clear Hinv.
  induction hs as [|h hs IH]; [done|]. by rewrite !fmap_cons.
Qed.

(** Where the outcome of the tie-break comes from. *)
Lemma tie_break_from l acc v r :
  foldl tie_break acc l = Some (v, r) →
  acc = Some (v, r) ∨ ∃ p, (v, p, r) ∈ l.
Proof.
  revert acc. induction l as [|[[v0 p0] r0] l IH]; intros acc; simpl; [by left|].
  intros [Hacc|[p Hp]]%IH.
  - destruct acc as [old|]; simpl in Hacc.
    + case_decide; simplify_eq.
      * right. eexists. by left.
      * by left.
    + simplify_eq. right. eexists. by left.
  - right. exists p. by right.
Qed.

Lemma tie_break_stays l x :
  Forall (λ s : string * string * APIResource, s.1.1 ≠ s.1.2) l →
  foldl tie_break (Some x) l = Some x.
Proof.
  induction 1 as [|[[v p] r] l Hs Hl IH]; [done|].
  simpl in *. by rewrite decide_False.
Qed.

Lemma tie_break_first s l :
  Forall (λ s : string * string * APIResource, s.1.1 ≠ s.1.2) l →
  foldl tie_break None (s :: l) = Some (s.1.1, s.2).
Proof. destruct s as [[v p] r]. simpl. apply tie_break_stays. Qed.

Lemma tie_break_preferred l1 v r l2 :
  Forall (λ s : string * string * APIResource, s.1.1 ≠ s.1.2) l2 →
  foldl tie_break None (l1 ++ (v, v, r) :: l2) = Some (v, r).
Proof.
  intros Hl2. rewrite foldl_app. simpl.
  destruct (foldl tie_break None l1) as [old|]; simpl.
  - rewrite decide_True by done. by apply tie_break_stays.
  - by apply tie_break_stays.
Qed.

Lemma sightings_elem k vs v p r :
  (v, p, r) ∈ sightings k vs →
  ∃ g ver rl, (g, ver, rl) ∈ vs ∧ r ∈ rl_APIResources rl ∧
              v = gvd_Version ver ∧
              mkGroupResource (grp_Name g) (res_Name r) = k.
Proof.
  unfold sightings, sightings_in. rewrite list_elem_of_In, in_flat_map.
  intros ([[g ver] rl] & Hv & Hs). simpl in Hs.
  apply in_flat_map in Hs as (r0 & Hr0 & Hs).
  destruct (strings_Contains (res_Name r0) "/"); [done|].
  case_decide as Hk; [|done].
  destruct Hs as [[= <- <- <-]|[]].
  exists g, ver, rl. by rewrite !list_elem_of_In.
Qed.

End WinnerFacts.

Section OutputFacts.
Context `{DiscoveryInterface W}.

Local Abbreviation client := (memcachedDiscoveryClient W).

(** X9.  However [ServerPreferredResources] ends, no list it returns holds
    two resources of the same name. *)
Theorem preferred_names_distinct range (c : client) :
  Forall (λ rl, NoDup (res_Name <$> rl_APIResources rl))
         (returned_lists (ServerPreferredResources range c)).
Proof.
  destruct (ServerPreferredResources_cases c)
    as [(c' & Hp)|[(e & c' & He)|(gl & c1 & st & c2 & _ & Hs & Hr)]].
  - rewrite Hp. constructor.
  - rewrite He. constructor.
  - destruct (Hr range) as (out & -> & _ & Hw). simpl.
    apply Forall_forall. intros rl [p Hp]%list_elem_of_lookup.
    rewrite (Hw p rl Hp).
    eapply winners_at_names, select_groups_inv, Hs.
Qed.

(** X10.  When the selection loops come to their end, the lists
    [ServerPreferredResources] returns hold, all together, the resources
    selected, one for every key and each of them once. *)
Theorem preferred_lists_hold_each_once range (c : client) gl c1 st c2 :
  ServerGroups c = Returned (Some gl, None) c1 →
  select_groups (Groups gl) empty_selection c1 = Returned (inl st) c2 →
  ∃ out,
    ServerPreferredResources range c = Returned (out, None) c2 ∧
    concat (rl_APIResources <$> out) ≡ₚ (map_to_list (grApiResources st)).*2 ∧
    length (concat (rl_APIResources <$> out)) = size (grApiResources st).
Proof.
  intros Hg Hs. pose proof (select_groups_inv _ _ _ _ Hs) as Hinv.
  destruct (group_loop_grouped (visitation (Groups gl)) st range Hinv)
    as (out & Hout & _).
  exists out.
  assert (concat (rl_APIResources <$> out)
          ≡ₚ (map_to_list (grApiResources st)).*2) as Hperm.
  { rewrite (group_loop_concat _ _ _ _ Hout).
    rewrite (selection_inv_no_resources _ _ Hinv). simpl.
    by rewrite (range_order_perm range). }
  split; [|split; [done|]].
  - unfold ServerPreferredResources. by rewrite Hg, Hs, Hout.
  - by rewrite Hperm, length_fmap, length_map_to_list.
Qed.

(** X11.  When [ServerPreferredResources] returns without an error,
    [ServerResources], from the same state, returns without an error too
    and ends in the same state; it returns as many lists, and every
    resource [ServerPreferredResources] returns is a resource of one of
    them. *)
Theorem preferred_resources_are_listed range (c : client) out c2 :
  ServerPreferredResources range c = Returned (out, None) c2 →
  ∃ res,
    ServerResources c = Returned (res, None) c2 ∧
    length res = length out ∧
    ∀ rl r, rl ∈ out → r ∈ rl_APIResources rl →
            ∃ rl', Some rl' ∈ res ∧ r ∈ rl_APIResources rl'.
Proof.
  intros Hp.
  destruct (ServerPreferredResources_inv _ _ _ _ Hp)
    as (gl & c1 & st & Hg & Hs & _).
  pose proof (select_groups_inv _ _ _ _ Hs) as Hinv.
  destruct (ServerPreferredResources_returns range c gl c1 st c2 Hg Hs)
    as (out0 & Hout0 & Hh & Hw).
  rewrite Hp in Hout0. injection Hout0 as <-.
  apply select_groups_fetched in Hs as (vs & Hvs & Hf & ->).
  exists (Some <$> vs.*2). split; [|split].
  - unfold ServerResources. rewrite Hg.
    by rewrite (proj2 (ServerResources_groups_fetches (Groups gl) [] c1
                         (Some <$> vs.*2) c2))
      by (eexists; split; [done|];
          unfold group_versions; rewrite <- Hvs; by apply fetched_fetches).
  - rewrite !length_fmap. apply Forall2_length in Hh.
    by rewrite <- Hh, <- Hvs, length_fmap.
  - intros rl r [p Hrl]%list_elem_of_lookup Hr.
    rewrite (Hw p rl Hrl) in Hr.
    apply winners_at_elem in Hr as (k & Hk & _).
    pose proof (selection_inv_recorded _ _ k Hinv) as [_ Hrec].
    rewrite (recorded_select_visits k vs [] empty_selection selection_inv_empty)
      in Hrec.
    replace (recorded empty_selection k) with (@None (string * APIResource))
      in Hrec by (unfold recorded; simpl; by rewrite lookup_empty).
    rewrite Hk in Hrec.
    destruct (foldl tie_break None (sightings k vs)) as [[v r']|] eqn:Hfold;
      [|done].
    simpl in Hrec. injection Hrec as <-.
    apply tie_break_from in Hfold as [?|[pv Hs]]; [done|].
    apply sightings_elem in Hs as (g & ver & rl' & Hin & Hr' & _).
    exists rl'. split; [|done].
    apply list_elem_of_fmap. exists rl'. split; [done|].
    apply list_elem_of_fmap. by exists (g, ver, rl').
Qed.

(** X12.  Which version is selected for a key, when the selection loops
    come to their end, in terms of the occurrences of the key in the order
    of the loops: a key that does not occur is not selected; when the key
    occurs under the preferred version of its group, the last such
    occurrence is selected; when it does not, the first occurrence is. *)
Theorem selected_is_last_preferred_or_first (c : client) gl c1 st c2 :
  ServerGroups c = Returned (Some gl, None) c1 →
  select_groups (Groups gl) empty_selection c1 = Returned (inl st) c2 →
  ∃ vs, vs.*1 = visitation (Groups gl) ∧ fetched c1 vs c2 ∧
    ∀ k,
      (sightings k vs = [] →
       grVersions st !! k = None ∧ grApiResources st !! k = None) ∧
      (∀ s l, sightings k vs = s :: l →
              Forall (λ s, s.1.1 ≠ s.1.2) l →
              grVersions st !! k = Some s.1.1 ∧
              grApiResources st !! k = Some s.2) ∧
      (∀ l1 v r l2, sightings k vs = l1 ++ (v, v, r) :: l2 →
                    Forall (λ s, s.1.1 ≠ s.1.2) l2 →
                    grVersions st !! k = Some v ∧
                    grApiResources st !! k = Some r).
Proof.
  intros Hg Hs.
  destruct (selection_is_tie_break c gl c1 st c2 Hg Hs) as (vs & Hvs & Hf & Hk).
  exists vs. split; [done|]. split; [done|]. intros k.
  destruct (Hk k) as [-> ->]. split; [|split].
  - by intros ->.
  - intros s l -> Hl. by rewrite tie_break_first.
  - intros l1 v r l2 -> Hl2. by rewrite tie_break_preferred.
Qed.

End OutputFacts.

(** * Further properties: the client for a resource *)

Section ClientFacts.
Context {P C R O M : Type} `{ServerResourcesInterface D}.
Variable env : Collaborators P C R O M.

(** X13.  The default namespace counts only for an object without a
    namespace: for an object whose metadata, when it can be had, names a
    namespace, [ClientForResource] ends the same way, with the same result
    and in the same state, whatever the default. *)
Theorem default_namespace_is_a_fallback (obj : O) (defNs defNs' : string)
    (s : P * D) :
  (∀ meta err, meta_Accessor env obj = (Some meta, err) →
               meta_GetNamespace env meta ≠ "") →
  ClientForResource env obj defNs s = ClientForResource env obj defNs' s.
Proof.
  intros Hns. unfold ClientForResource.
  destruct (pool_ClientForGroupVersionKind env _ s.1) as [[client [e|]] pool];
    [done|].
  destruct (serverResourceForGroupVersionKind _ s.2)
    as [[resource [e|]] disco|disco]; try done.
  destruct (meta_Accessor env obj) as [[meta|] [e|]] eqn:Hmeta; try done.
  by rewrite !decide_False by eauto.
Qed.

(** X14.  A resource client that [ClientForResource] returns comes from
    the client the pool gave for the group-version-kind of the object, is
    for the first resource of that kind in the resource list of the
    group-version, and is in the namespace of the object or, when the
    object has none, in the default namespace; no error comes with it. *)
Theorem ClientForResource_returns_scoped (obj : O) (defNs : string)
    (s s' : P * D) rc err :
  ClientForResource env obj defNs s = Returned (Some rc, err) s' →
  let gvk := obj_GroupVersionKind env obj in
  err = None ∧
  ∃ client meta rl before r after,
    pool_ClientForGroupVersionKind env gvk s.1 = ((client, None), s'.1) ∧
    disco_ServerResourcesForGroupVersion
      (GroupVersion_String (gvk_GroupVersion gvk)) s.2
      = Returned (Some rl, None) s'.2 ∧
    rl_APIResources rl = before ++ r :: after ∧
    Forall (λ x, res_Kind x ≠ gvk_Kind gvk) before ∧
    res_Kind r = gvk_Kind gvk ∧
    meta_Accessor env obj = (Some meta, None) ∧
    rc = client_Resource env client (Some r)
           (if decide (meta_GetNamespace env meta = "") then defNs
            else meta_GetNamespace env meta).
Proof.
  intros Hr. cbv zeta. unfold ClientForResource in Hr. cbv zeta in Hr.
  set (gvk := obj_GroupVersionKind env obj) in *.
  destruct (pool_ClientForGroupVersionKind env gvk s.1)
    as [[client [e|]] pool]; [done|].
  unfold serverResourceForGroupVersionKind in Hr.
  destruct (disco_ServerResourcesForGroupVersion _ s.2)
    as [[[rl|] [e|]] disco|disco]; try done.
  destruct (resource_of_kind (gvk_Kind gvk) (rl_APIResources rl))
    as [r|] eqn:Hkind; [|done].
  destruct (meta_Accessor env obj) as [[meta|] [e|]]; try done.
  injection Hr as <- <- <-. split; [done|].
  apply resource_of_kind_Some in Hkind as (before & after & Hrl & Hb & Hk).
  by exists client, meta, rl, before, r, after.
Qed.

End ClientFacts.

Section ResolverCacheFacts.
Context `{DiscoveryInterface W}.

Local Abbreviation client := (memcachedDiscoveryClient W).

(** X15.  Through the cache, a lookup that has found the resource of a
    group-version-kind finds it again in the state it left, and leaves
    that state, and so the provider, as it is. *)
Theorem resource_for_kind_from_cache (gvk : GroupVersionKind) (c c1 : client) r :
  serverResourceForGroupVersionKind gvk c = Returned (Some r, None) c1 →
  serverResourceForGroupVersionKind gvk c1 = Returned (Some r, None) c1.
Proof.
  unfold serverResourceForGroupVersionKind. simpl.
  destruct (ServerResourcesForGroupVersion _ c)
    as [[[rl|] [e|]] c'|c'] eqn:Hc; try done.
  destruct (resource_of_kind _ _) as [r'|] eqn:Hkind; [|done].
  intros [= <- <-].
  by rewrite (fetch_hit _ c' rl (fetch_stores _ _ _ _ _ Hc)), Hkind.
Qed.

(** X16.  After [ServerPreferredResources] has returned without an error,
    the lookup of the resource for a group-version-kind whose group-version
    is written like one of the lists returned is answered from the cache:
    it does not panic and leaves the state, and so the provider, as it
    is. *)
Theorem resource_for_kind_after_aggregation range (c c2 : client) out gvk :
  ServerPreferredResources range c = Returned (out, None) c2 →
  GroupVersion_String (gvk_GroupVersion gvk) ∈ rl_GroupVersion <$> out →
  ∃ res err,
    serverResourceForGroupVersionKind gvk c2 = Returned (res, err) c2.
Proof.
  intros Hp Hin.
  destruct (ServerPreferredResources_inv _ _ _ _ Hp)
    as (gl & c1 & st & Hg & Hs & _).
  destruct (ServerPreferredResources_returns range c gl c1 st c2 Hg Hs)
    as (out0 & Hout0 & Hh & _).
  rewrite Hp in Hout0. injection Hout0 as <-.
  apply select_groups_fetched in Hs as (vs & Hvs & Hf & _).
  apply list_elem_of_fmap in Hin as (rl & Hkey & [p Hp']%list_elem_of_lookup).
  destruct (Forall2_lookup_r _ _ _ _ _ Hh Hp') as (h & Hh' & Hgv).
  rewrite <- Hvs, list_lookup_fmap in Hh'.
  destruct (vs !! p) as [[[g ver] rl']|] eqn:Hv; [|done].
  injection Hh' as <-. simpl in Hgv.
  apply fetched_fetches, fetches_cached in Hf.
  assert (map_index (serverresources c2) (gvd_GroupVersion ver) = Some rl')
    as Hcached.
  { eapply (Forall2_lookup_lr _ _ _ p _ _ Hf); [..|done].
    - by rewrite !list_lookup_fmap, Hv.
    - by rewrite !list_lookup_fmap, Hv. }
  unfold serverResourceForGroupVersionKind. simpl.
  rewrite Hkey, Hgv, (fetch_hit _ c2 rl' Hcached).
  destruct (resource_of_kind _ _); eauto.
Qed.

End ResolverCacheFacts.

(** * The further properties at the example providers *)

Lemma cached_value_is_kept_apps :
  let ops := [OpRead MServerVersion; OpServerPreferredResources in_order;
              OpFresh; OpServerResources;
              OpRead (MSwaggerSchema version_a_bc)] in
  let v := GroupsValue (Some apps_groups) in
  Forall (λ op, op ≠ OpInvalidate) ops ∧
  slot_value (slot_of MServerGroups) apps_client1 = v ∧
  is_nil v = false ∧
  slot_value (slot_of MServerGroups) (run_ops ops apps_client1) = v ∧
  read MServerGroups (run_ops ops apps_client1)
    = Returned (v, None) (run_ops ops apps_client1).
Proof.
  intros ops v.
  assert (Forall (λ op, op ≠ OpInvalidate) ops) as Hops
    by (repeat (constructor; [discriminate|]); constructor).
  assert (slot_value (slot_of MServerGroups) apps_client1 = v) as Hs
    by reflexivity.
  assert (is_nil v = false) as Hv by reflexivity.
  split; [exact Hops|]. split; [exact Hs|]. split; [exact Hv|].
  exact (cached_value_is_kept ops MServerGroups apps_client1 v Hops Hs Hv).
Defined.

Lemma schemas_are_kept_by_string_abc :
  let c := NewMemcachedDiscoveryClient swagger_server in
  let c1 := state_after (SwaggerSchema version_a_bc c) in
  GroupVersion_String version_a_bc = GroupVersion_String version_ab_c ∧
  SwaggerSchema version_a_bc c = Returned (Some (mkApiDeclaration "b/c"), None) c1 ∧
  SwaggerSchema version_ab_c c1 = Returned (Some (mkApiDeclaration "b/c"), None) c1.
Proof.
  intros c c1.
  assert (GroupVersion_String version_a_bc = GroupVersion_String version_ab_c)
    as Hkey by reflexivity.
  assert (SwaggerSchema version_a_bc c
          = Returned (Some (mkApiDeclaration "b/c"), None) c1) as Hr
    by (vm_compute; reflexivity).
  split; [exact Hkey|]. split; [exact Hr|].
  exact (schemas_are_kept_by_string version_a_bc version_ab_c c c1 _ Hkey Hr).
Defined.

Lemma ServerPreferredResources_from_cache_apps :
  ServerPreferredResources in_order apps_client
    = Returned (apps_preferred, None) apps_client2 ∧
  ServerPreferredResources in_order apps_client2
    = Returned (apps_preferred, None) apps_client2 ∧
  ∀ range', ∃ out',
    ServerPreferredResources range' apps_client2
      = Returned (out', None) apps_client2 ∧
    Forall2 (λ a b, rl_GroupVersion a = rl_GroupVersion b ∧
                    rl_APIResources a ≡ₚ rl_APIResources b)
            apps_preferred out'.
Proof.
  assert (ServerPreferredResources in_order apps_client
          = Returned (apps_preferred, None) apps_client2) as Hp
    by (vm_compute; reflexivity).
  split; [exact Hp|].
  exact (ServerPreferredResources_from_cache in_order apps_client
           apps_preferred apps_client2 Hp).
Defined.

Lemma ServerResources_from_cache_apps :
  ServerResources apps_client = Returned (apps_listed, None) apps_client2 ∧
  Forall is_Some apps_listed ∧
  ServerResources apps_client2 = Returned (apps_listed, None) apps_client2.
Proof.
  assert (ServerResources apps_client
          = Returned (apps_listed, None) apps_client2) as Hr
    by (vm_compute; reflexivity).
  assert (Forall is_Some apps_listed) as Hres
    by (repeat constructor; eexists; reflexivity).
  split; [exact Hr|]. split; [exact Hres|].
  exact (ServerResources_from_cache apps_client apps_listed apps_client2 Hr Hres).
Defined.

Lemma walk_calls_discovery_only_apps :
  let op := OpServerPreferredNamespacedResources true in_reverse in
  let c := used_apps_client in
  walks op = true ∧
  schemas (run_op op c) = schemas c ∧
  schema (run_op op c) = schema c ∧
  serverVersion (run_op op c) = serverVersion c ∧
  ∃ made, calls (cl (run_op op c)) = calls (cl c) ++ made ∧
          Forall (λ call, discovery_call call = true) made.
Proof.
  intros op c.
  assert (walks op = true) as Hop by reflexivity.
  split; [exact Hop|].
  exact (walk_calls_discovery_only op c Hop).
Defined.

Lemma preferred_lists_hold_each_once_core :
  ServerGroups core_client = Returned (Some core_groups, None) core_client1 ∧
  select_groups (Groups core_groups) empty_selection core_client1
    = Returned (inl core_selection) core_client2 ∧
  ∃ out,
    ServerPreferredResources in_reverse core_client
      = Returned (out, None) core_client2 ∧
    concat (rl_APIResources <$> out)
      ≡ₚ (map_to_list (grApiResources core_selection)).*2 ∧
    length (concat (rl_APIResources <$> out))
      = size (grApiResources core_selection).
Proof.
  assert (ServerGroups core_client
          = Returned (Some core_groups, None) core_client1) as Hg
    by reflexivity.
  assert (select_groups (Groups core_groups) empty_selection core_client1
          = Returned (inl core_selection) core_client2) as Hs
    by (vm_compute; reflexivity).
  split; [exact Hg|]. split; [exact Hs|].
  exact (preferred_lists_hold_each_once in_reverse core_client core_groups
           core_client1 core_selection core_client2 Hg Hs).
Defined.

Lemma preferred_resources_are_listed_core :
  ServerPreferredResources in_reverse core_client
    = Returned (core_preferred, None) core_client2 ∧
  ∃ res,
    ServerResources core_client = Returned (res, None) core_client2 ∧
    length res = length core_preferred ∧
    ∀ rl r, rl ∈ core_preferred → r ∈ rl_APIResources rl →
            ∃ rl', Some rl' ∈ res ∧ r ∈ rl_APIResources rl'.
Proof.
  assert (ServerPreferredResources in_reverse core_client
          = Returned (core_preferred, None) core_client2) as Hp
    by (vm_compute; reflexivity).
  split; [exact Hp|].
  exact (preferred_resources_are_listed in_reverse core_client core_preferred
           core_client2 Hp).
Defined.

Lemma selected_is_last_preferred_or_first_apps :
  ServerGroups apps_client = Returned (Some apps_groups, None) apps_client1 ∧
  select_groups (Groups apps_groups) empty_selection apps_client1
    = Returned (inl apps_selection) apps_client2 ∧
  ∃ vs, vs.*1 = visitation (Groups apps_groups) ∧
    fetched apps_client1 vs apps_client2 ∧
    ∀ k,
      (sightings k vs = [] →
       grVersions apps_selection !! k = None ∧
       grApiResources apps_selection !! k = None) ∧
      (∀ s l, sightings k vs = s :: l →
              Forall (λ s, s.1.1 ≠ s.1.2) l →
              grVersions apps_selection !! k = Some s.1.1 ∧
              grApiResources apps_selection !! k = Some s.2) ∧
      (∀ l1 v r l2, sightings k vs = l1 ++ (v, v, r) :: l2 →
                    Forall (λ s, s.1.1 ≠ s.1.2) l2 →
                    grVersions apps_selection !! k = Some v ∧
                    grApiResources apps_selection !! k = Some r).
Proof.
  assert (ServerGroups apps_client
          = Returned (Some apps_groups, None) apps_client1) as Hg
    by reflexivity.
  assert (select_groups (Groups apps_groups) empty_selection apps_client1
          = Returned (inl apps_selection) apps_client2) as Hs
    by (vm_compute; reflexivity).
  split; [exact Hg|]. split; [exact Hs|].
  exact (selected_is_last_preferred_or_first apps_client apps_groups
           apps_client1 apps_selection apps_client2 Hg Hs).
Defined.

Lemma default_namespace_is_a_fallback_foo :
  let obj := deployment_in "foo" in
  (∀ meta err, meta_Accessor example_env obj = (Some meta, err) →
               meta_GetNamespace example_env meta ≠ "") ∧
  ClientForResource example_env obj "kube-system" (0, apps_client)
  = ClientForResource example_env obj "default" (0, apps_client).
Proof.
  intros obj.
  assert (∀ meta err, meta_Accessor example_env obj = (Some meta, err) →
                      meta_GetNamespace example_env meta ≠ "") as Hns
    by (intros meta err [= <- _]; discriminate).
  split; [exact Hns|].
  exact (default_namespace_is_a_fallback example_env obj "kube-system" "default"
           (0, apps_client) Hns).
Defined.

Lemma ClientForResource_returns_scoped_apps :
  let obj := deployment_in "" in
  let rc := (eo_kind obj, Some deployments, "kube-system") in
  let s' := state_after
              (ClientForResource example_env obj "kube-system" (0, apps_client)) in
  ClientForResource example_env obj "kube-system" (0, apps_client)
    = Returned (Some rc, None) s' ∧
  ∃ client meta rl before r after,
    pool_ClientForGroupVersionKind example_env (eo_kind obj) 0
      = ((client, None), s'.1) ∧
    disco_ServerResourcesForGroupVersion
      (GroupVersion_String (gvk_GroupVersion (eo_kind obj))) apps_client
      = Returned (Some rl, None) s'.2 ∧
    rl_APIResources rl = before ++ r :: after ∧
    Forall (λ x, res_Kind x ≠ gvk_Kind (eo_kind obj)) before ∧
    res_Kind r = gvk_Kind (eo_kind obj) ∧
    meta_Accessor example_env obj = (Some meta, None) ∧
    rc = client_Resource example_env client (Some r)
           (if decide (meta_GetNamespace example_env meta = "")
            then "kube-system" else meta_GetNamespace example_env meta).
Proof.
  intros obj rc s'.
  assert (ClientForResource example_env obj "kube-system" (0, apps_client)
          = Returned (Some rc, None) s') as Hr
    by (vm_compute; reflexivity).
  split; [exact Hr|].
  exact (proj2 (ClientForResource_returns_scoped example_env obj "kube-system"
                  (0, apps_client) s' rc None Hr)).
Defined.

Lemma resource_for_kind_from_cache_apps :
  let gvk := mkGroupVersionKind "apps" "v1" "Deployment" in
  let c1 := state_after (serverResourceForGroupVersionKind gvk apps_client) in
  serverResourceForGroupVersionKind gvk apps_client
    = Returned (Some deployments, None) c1 ∧
  serverResourceForGroupVersionKind gvk c1
    = Returned (Some deployments, None) c1.
Proof.
  intros gvk c1.
  assert (serverResourceForGroupVersionKind gvk apps_client
          = Returned (Some deployments, None) c1) as Hr
    by (vm_compute; reflexivity).
  split; [exact Hr|].
  exact (resource_for_kind_from_cache gvk apps_client c1 deployments Hr).
Defined.

Lemma resource_for_kind_after_aggregation_apps :
  let gvk := mkGroupVersionKind "apps" "v1" "StatefulSet" in
  ServerPreferredResources in_order apps_client
    = Returned (apps_preferred, None) apps_client2 ∧
  GroupVersion_String (gvk_GroupVersion gvk)
    ∈ rl_GroupVersion <$> apps_preferred ∧
  ∃ res err,
    serverResourceForGroupVersionKind gvk apps_client2
      = Returned (res, err) apps_client2.
Proof.
  intros gvk.
  assert (ServerPreferredResources in_order apps_client
          = Returned (apps_preferred, None) apps_client2) as Hp
    by (vm_compute; reflexivity).
  assert (GroupVersion_String (gvk_GroupVersion gvk)
            ∈ rl_GroupVersion <$> apps_preferred) as Hin
    by (vm_compute; repeat constructor).
  split; [exact Hp|]. split; [exact Hin|].
  exact (resource_for_kind_after_aggregation in_order apps_client apps_client2
           apps_preferred gvk Hp Hin).
Defined.

(** The client for a resource, computed: an object without a namespace
    gets a client in the default namespace, an object with a namespace a
    client in its own; the pool has given out one client. *)
Example client_in_default_namespace :
  ClientForResource example_env (deployment_in "") "kube-system" (0, apps_client)
  = Returned (Some (mkGroupVersionKind "apps" "v1" "Deployment",
                    Some deployments, "kube-system"), None)
             (1, state_after (ServerResourcesForGroupVersion "apps/v1" apps_client)).
Proof. vm_compute. reflexivity. Qed.

Example client_in_own_namespace :
  ClientForResource example_env (deployment_in "foo") "kube-system" (0, apps_client)
  = Returned (Some (mkGroupVersionKind "apps" "v1" "Deployment",
                    Some deployments, "foo"), None)
             (1, state_after (ServerResourcesForGroupVersion "apps/v1" apps_client)).
Proof. vm_compute. reflexivity. Qed.

(** * Further properties: the cache in front of a provider without a state *)

Section ReadSlotFacts.
Context `{DiscoveryInterface W}.

Local Abbreviation client := (memcachedDiscoveryClient W).

(** A read leaves what the other slots hold as it is. *)
Lemma read_frame m sl (c : client) :
  slot_of m ≠ sl → slot_value sl (state_after (read m c)) = slot_value sl c.
Proof.
  intros Hne.
  destruct (is_nil (slot_value sl c)) eqn:Hnil; [|by apply read_keeps].
  assert (slot_empty sl c) as Hempty.
  { destruct sl; simpl in *.
    - by destruct (servergroups c).
    - by destruct (map_index _ _).
    - by destruct (serverVersion c).
    - by destruct (map_index _ _).
    - by destruct (schema c). }
  pose proof (read_other_slot m sl c Hne Hempty) as Hafter.
  destruct sl; simpl in *; congruence.
Qed.

(** A read returns what its slot holds when it has returned. *)
Lemma read_returns_slot m (c c' : client) v err :
  read m c = Returned (v, err) c' → slot_value (slot_of m) c' = v.
Proof.
  destruct m; simpl.
  - unfold ServerGroups. destruct (servergroups c) as [g|] eqn:Hg.
    + intros [= <- _ <-]. simpl. by rewrite Hg.
    + destruct (cl_ServerGroups (cl c)) as [[g e] w]. by intros [= <- _ <-].
  - unfold ServerResourcesForGroupVersion.
    destruct (map_index _ _) as [rl|] eqn:Hk.
    + intros [= <- _ <-]. simpl. by rewrite Hk.
    + destruct (cl_ServerResourcesForGroupVersion _ (cl c)) as [[rl e] w].
      destruct (serverresources c); [|done].
      intros [= <- _ <-]. simpl. by rewrite lookup_insert_eq.
  - unfold ServerVersion. destruct (serverVersion c) as [i|] eqn:Hv.
    + intros [= <- _ <-]. simpl. by rewrite Hv.
    + destruct (cl_ServerVersion (cl c)) as [[i [e|]] w];
        intros [= <- _ <-]; simpl; by rewrite ?Hv.
  - unfold SwaggerSchema. destruct (map_index _ _) as [d|] eqn:Hk.
    + intros [= <- _ <-]. simpl. by rewrite Hk.
    + destruct (cl_SwaggerSchema _ (cl c)) as [[d [e|]] w].
      * intros [= <- _ <-]. simpl. by rewrite Hk.
      * destruct (schemas c); [|done].
        intros [= <- _ <-]. simpl. by rewrite lookup_insert_eq.
  - unfold OpenAPISchema. destruct (schema c) as [d|] eqn:Hd.
    + intros [= <- _ <-]. simpl. by rewrite Hd.
    + destruct (cl_OpenAPISchema (cl c)) as [[d [e|]] w];
        intros [= <- _ <-]; simpl; by rewrite ?Hd.
Qed.

End ReadSlotFacts.

Section StaticFacts.

Local Abbreviation client := (memcachedDiscoveryClient StaticServer).

(** What the slot of a read holds after the read: what it held, or what
    the provider gives. *)
Lemma read_own_slot s m (c : client) :
  cl c = s →
  cl (state_after (read m c)) = s ∧
  (slot_value (slot_of m) (state_after (read m c)) = slot_value (slot_of m) c ∨
   slot_value (slot_of m) (state_after (read m c)) = provider_value s m).
Proof.
  intros <-. unfold provider_value.
  destruct m; simpl; rewrite state_after_answer.
  - destruct (ss_groups (cl c)) as [g e] eqn:Hp. simpl.
    unfold ServerGroups. destruct (servergroups c) eqn:Hg; simpl.
    + split; [done|]. left. by rewrite ?Hg.
    + rewrite Hp. simpl. split; [done|]. by right.
  - destruct (ss_resources (cl c) groupVersion) as [g e] eqn:Hp. simpl.
    unfold ServerResourcesForGroupVersion.
    destruct (map_index (serverresources c) groupVersion) eqn:Hk; simpl.
    + split; [done|]. left. by rewrite ?Hk.
    + rewrite Hp. destruct (serverresources c) eqn:Hm; simpl.
      * split; [done|]. right. by rewrite lookup_insert_eq.
      * split; [done|]. by left.
  - destruct (ss_version (cl c)) as [g e] eqn:Hp. simpl.
    unfold ServerVersion. destruct (serverVersion c) eqn:Hv; simpl.
    + split; [done|]. left. by rewrite ?Hv.
    + rewrite Hp. destruct e; simpl.
      * split; [done|]. left. by rewrite ?Hv.
      * split; [done|]. by right.
  - destruct (ss_swagger (cl c) version) as [g e] eqn:Hp. simpl.
    unfold SwaggerSchema.
    destruct (map_index (schemas c) (GroupVersion_String version)) eqn:Hk; simpl.
    + split; [done|]. left. by rewrite ?Hk.
    + rewrite Hp. destruct e; simpl.
      * split; [done|]. left. by rewrite ?Hk.
      * destruct (schemas c) eqn:Hm; simpl.
        -- split; [done|]. right. by rewrite lookup_insert_eq.
        -- split; [done|]. by left.
  - destruct (ss_openapi (cl c)) as [g e] eqn:Hp. simpl.
    unfold OpenAPISchema. destruct (schema c) eqn:Hd; simpl.
    + split; [done|]. left. by rewrite ?Hd.
    + rewrite Hp. destruct e; simpl.
      * split; [done|]. left. by rewrite ?Hd.
      * split; [done|]. by right.
Qed.

Lemma read_coherent s m (c : client) :
  coherent s c → coherent s (state_after (read m c)).
Proof.
  intros [Hcl Hslots].
  destruct (read_own_slot s m c Hcl) as [Hcl' Hown].
  split; [done|]. intros sl Hnil.
  destruct (decide (slot_of m = sl)) as [<-|Hne].
  - destruct Hown as [Hold|Hnew].
    + rewrite Hold in *. by apply Hslots.
    + exists m. by rewrite Hnew.
  - rewrite read_frame in * by done. by apply Hslots.
Qed.

Lemma Invalidate_coherent s (c : client) :
  cl c = s → coherent s (Invalidate c).
Proof.
  intros Hcl. split; [done|].
  intros sl Hnil. destruct sl; simpl in *; by rewrite ?lookup_empty in Hnil.
Qed.

Lemma run_op_coherent s op (c : client) :
  coherent s c → coherent s (run_op op c).
Proof.
  intros Hc. destruct (walks op) eqn:Hw.
  - apply (walk_preserves (coherent s)); try done.
    + intros c' Hc'. pose proof (read_coherent s MServerGroups c' Hc') as Hk.
      simpl in Hk. by rewrite state_after_answer in Hk.
    + intros gv c' Hc'.
      pose proof (read_coherent s (MServerResourcesForGroupVersion gv) c' Hc')
        as Hk.
      simpl in Hk. by rewrite state_after_answer in Hk.
  - destruct op as [| |m| |range|dropEmpty range]; try done.
    + apply Invalidate_coherent. by destruct Hc.
    + by apply read_coherent.
Qed.

Lemma run_ops_coherent s ops (c : client) :
  coherent s c → coherent s (run_ops ops c).
Proof.
  revert c. induction ops as [|op ops IH]; intros c Hc; [done|].
  simpl. apply IH. by apply run_op_coherent.
Qed.

(** X17.  In front of a provider that always gives the same answers, and
    after whatever operations, a value that a read returns and that is not
    nil is the value the provider gives for the method (for a schema: for a
    group-version with the same string). *)
Theorem cache_serves_provider_values (s : StaticServer) (ops : list Op)
    (m : Method) v err (c' : client) :
  read m (run_ops ops (NewMemcachedDiscoveryClient s)) = Returned (v, err) c' →
  is_nil v = false →
  ∃ m', slot_of m' = slot_of m ∧ provider_value s m' = v.
Proof.
  intros Hr Hv.
  assert (coherent s (run_ops ops (NewMemcachedDiscoveryClient s))) as Hc
    by (by apply run_ops_coherent, Invalidate_coherent).
  apply (read_coherent s m) in Hc. rewrite Hr in Hc. simpl in Hc.
  destruct Hc as [_ Hslots].
  apply read_returns_slot in Hr. rewrite <- Hr in *. by apply Hslots.
Qed.

End StaticFacts.

Lemma cache_serves_provider_values_apps :
  let ops := [OpServerPreferredResources in_order; OpInvalidate;
              OpRead MServerVersion; OpServerResources] in
  let m := MServerResourcesForGroupVersion "apps/v1" in
  let v := ResourcesValue (Some (mkAPIResourceList "apps/v1" [deployments])) in
  let c := run_ops ops (NewMemcachedDiscoveryClient apps_server) in
  read m c = Returned (v, None) c ∧
  is_nil v = false ∧
  ∃ m', slot_of m' = slot_of m ∧ provider_value apps_server m' = v.
Proof.
  intros ops m v c.
  assert (read m c = Returned (v, None) c) as Hr by (vm_compute; reflexivity).
  assert (is_nil v = false) as Hv by reflexivity.
  split; [exact Hr|]. split; [exact Hv|].
  exact (cache_serves_provider_values apps_server ops m v None c Hr Hv).
Defined.
